(** * myShell vector.c: a shallow embedding of the generic vector

    The C file implements a growable array of [void*] slots together with
    three user callbacks.  The embedding below follows the C text function by
    function:

    - [size_t] is a 64-bit unsigned integer (LP64): values are [Z] and every
      arithmetic result that the C code stores in a [size_t] goes through
      [wrap];  a pointer takes 8 bytes;
    - a [void*] element is a [slot]: [None] is [NULL], [Some e] points to a
      payload [e];
    - the heap block behind [this->array] is a list of slots; reading or
      writing outside of the block is the outcome [OutOfBounds];
    - [assert] that fails is the outcome [AssertFail];
    - a loop that never exits is the outcome [Diverges]; the counted loops
      are given the number of rounds that their bounds allow, and only the
      loop of [get_new_capacity] can use up its rounds
      ([run_operation_outcome]);
    - the callbacks are invoked through [call_copy], [call_destructor] and
      [call_default], which append to the ghost field [calls] so that the
      order and the arguments of the invocations can be stated;
    - [this] is always a valid handle (every [assert(this)] passes), and
      [malloc]/[realloc] hand out the number of bytes they are asked for;
    - the address of a slot is its offset, in slots, from [this->array].

    The typed constructors ([int_vector_create] and the like, whose
    callbacks are defined outside of vector.c) are not embedded. *)

From stdpp Require Import base numbers list.

Local Open Scope Z_scope.

(** ** Machine integers *)

Definition SIZE_MODULUS : Z := 2 ^ 64.
Definition sizeof_ptr : Z := 8.

(** Value of a [size_t] expression whose mathematical value is [z]. *)
Definition wrap (z : Z) : Z := z mod SIZE_MODULUS.

Definition INITIAL_CAPACITY : Z := 8.
Definition GROWTH_FACTOR : Z := 2.

(** Largest slot count whose byte size still fits a [size_t]. *)
Definition MAX_SLOTS : Z := 2 ^ 60.

(** ** get_new_capacity *)

(** The [while] loop of [get_new_capacity]; [None] when the fuel is used up. *)
Fixpoint get_new_capacity_loop (fuel : nat) (new_capacity target : Z) : option Z :=
  match fuel with
  | O => None
  | S fuel' =>
      if new_capacity <? target
      then get_new_capacity_loop fuel' (wrap (new_capacity * GROWTH_FACTOR)) target
      else Some new_capacity
  end.

(** After 64 doublings the 64-bit counter is 0 and stays 0, so 65 rounds
    decide the loop (see [get_new_capacity_loop_more_fuel]). *)
Definition get_new_capacity (target : Z) : option Z :=
  get_new_capacity_loop 65 1 target.

(** ** Outcomes and the state monad of the vector operations *)

Inductive outcome (A : Type) : Type :=
| Done (a : A)
| AssertFail
| OutOfBounds
| Diverges.

Arguments Done {A} a.
Arguments AssertFail {A}.
Arguments OutOfBounds {A}.
Arguments Diverges {A}.

(** A [void*]: [NULL] or a pointer to a payload of type [elem]. *)
Abbreviation slot elem := (option elem) (only parsing).

Section Vector.

Context {elem : Type}.

(** Invocations of the three callbacks. *)
Inductive call : Type :=
| CopyCall (e : elem)
| DestroyCall (p : slot elem)
| DefaultCall.

(** [struct vector].  The destructor returns nothing, so a call to it is
    only visible in the ghost field [calls]. *)
Record vector : Type := mkVector {
  copy_constructor : elem -> slot elem;
  destructor : slot elem -> unit;
  default_constructor : unit -> slot elem;
  array : list (slot elem);
  size : Z;
  capacity : Z;
  calls : list call
}.

Definition set_array (a : list (slot elem)) (v : vector) : vector :=
  mkVector (copy_constructor v) (destructor v) (default_constructor v) a (size v) (capacity v) (calls v).
Definition set_size (n : Z) (v : vector) : vector :=
  mkVector (copy_constructor v) (destructor v) (default_constructor v) (array v) n (capacity v) (calls v).
Definition set_capacity (n : Z) (v : vector) : vector :=
  mkVector (copy_constructor v) (destructor v) (default_constructor v) (array v) (size v) n (calls v).
Definition record_call (c : call) (v : vector) : vector :=
  mkVector (copy_constructor v) (destructor v) (default_constructor v) (array v) (size v) (capacity v)
           (calls v ++ [c]).

(** Computations on [*this]. *)
Definition M (A : Type) : Type := vector -> outcome (A * vector).

Definition ret {A} (a : A) : M A := fun v => Done (a, v).

Definition bind {A B} (m : M A) (k : A -> M B) : M B :=
  fun v =>
    match m v with
    | Done (a, v') => k a v'
    | AssertFail => AssertFail
    | OutOfBounds => OutOfBounds
    | Diverges => Diverges
    end.

#[global] Instance M_ret : MRet M := @ret.
#[global] Instance M_bind : MBind M := fun A B k m => bind m k.

Definition reads {A} (f : vector -> A) : M A := fun v => Done (f v, v).
Definition modify (f : vector -> vector) : M unit := fun v => Done (tt, f v).

Definition assert (b : bool) : M unit :=
  fun v => if b then Done (tt, v) else AssertFail.

(** A pure loop that may not return. *)
Definition run_loop {A} (r : option A) : M A :=
  fun v => match r with Some a => Done (a, v) | None => Diverges end.

(** [this->array[i]] as an rvalue. *)
Definition load (i : Z) : M (slot elem) :=
  fun v =>
    if (0 <=? i) && (i <? Z.of_nat (length (array v)))
    then Done (default None (array v !! Z.to_nat i), v)
    else OutOfBounds.

(** [this->array[i] = x]. *)
Definition store (i : Z) (x : slot elem) : M unit :=
  fun v =>
    if (0 <=? i) && (i <? Z.of_nat (length (array v)))
    then Done (tt, set_array (<[Z.to_nat i := x]> (array v)) v)
    else OutOfBounds.

(** [(this->destructor)(p)]. *)
Definition call_destructor (p : slot elem) : M unit :=
  fun v => Done (destructor v p, record_call (DestroyCall p) v).

(** A call of [this->copy_constructor] on [e]. *)
Definition call_copy (e : elem) : M (slot elem) :=
  fun v => Done (copy_constructor v e, record_call (CopyCall e) v).

(** [this->default_constructor()]. *)
Definition call_default : M (slot elem) :=
  fun v => Done (default_constructor v tt, record_call DefaultCall v).

(** [element ? copy_constructor(element) : NULL]. *)
Definition copy_or_null (element : slot elem) : M (slot elem) :=
  match element with
  | Some e => call_copy e
  | None => ret None
  end.

(** [while (cond) body] with a loop-carried local [l]; the fuel bounds the
    number of evaluations of [cond]. *)
Fixpoint while {L} (fuel : nat) (cond : L -> vector -> bool) (body : L -> M L)
    (l : L) : M L :=
  fun v =>
    match fuel with
    | O => Diverges
    | S fuel' =>
        if cond l v
        then match body l v with
             | Done (l', v') => while fuel' cond body l' v'
             | AssertFail => AssertFail
             | OutOfBounds => OutOfBounds
             | Diverges => Diverges
             end
        else Done (l, v)
    end.

(** [realloc(block, bytes)]: the block keeps its leading slots and has room
    for [bytes / sizeof_ptr] of them.  Slots that are new are written by
    the caller before they are read; they show up as [None] here. *)
Definition realloc (block : list (slot elem)) (bytes : Z) : list (slot elem) :=
  let n := Z.to_nat (bytes / sizeof_ptr) in
  take n block ++ replicate (n - length block)%nat None.

(** ** The functions of vector.c *)

(** The block of [INITIAL_CAPACITY] slots comes from [malloc] and the loop
    that follows stores [NULL] to each of its slots. *)
Definition vector_create (copy_constructor : elem -> slot elem)
    (destructor : slot elem -> unit)
    (default_constructor : unit -> slot elem) : vector :=
  mkVector copy_constructor destructor default_constructor
           (replicate (Z.to_nat INITIAL_CAPACITY) None) 0 INITIAL_CAPACITY [].

Definition vector_begin : M Z := ret 0.
Definition vector_end : M Z := reads size.
Definition vector_capacity : M Z := reads capacity.
Definition vector_empty : M bool := reads (fun v => size v =? 0).

(** The loop after [realloc] clears the slots in [[capacity, cap)]. *)
Definition vector_reserve (n : Z) : M unit :=
  old ← reads capacity;
  if n <=? old then ret tt
  else
    cap ← run_loop (get_new_capacity n);
    modify (fun v => set_array (realloc (array v) (wrap (cap * sizeof_ptr))) v);;
    while (S (Z.to_nat (cap - old))) (fun i _ => i <? cap)
          (fun i => store i None;; ret (wrap (i + 1))) old;;
    modify (set_capacity cap).

(** [this->array[this->size++] = element ? copy : NULL], after the guard
    that reserves [capacity + 1] slots when the block is full. *)
Definition vector_push_back (element : slot elem) : M unit :=
  sz ← reads size;
  cap ← reads capacity;
  (if sz =? cap then vector_reserve (wrap (cap + 1)) else ret tt);;
  x ← copy_or_null element;
  i ← reads size;
  modify (set_size (wrap (i + 1)));;
  store i x.

(** [this->size] is decremented first (with wrap-around), then the slot at
    the new size is destroyed and cleared.  There is no check on [size]. *)
Definition vector_pop_back : M unit :=
  sz ← reads size;
  modify (set_size (wrap (sz - 1)));;
  i ← reads size;
  p ← load i;
  call_destructor p;;
  i ← reads size;
  store i None.

(** The growing branch pushes a default-constructed element and destroys
    that element (not the pushed copy) until [size] is [n]; the shrinking
    branch destroys and clears the slots in [[n, size)]. *)
Definition vector_resize (n : Z) : M unit :=
  cap ← reads capacity;
  (if cap <? n then vector_reserve n else ret tt);;
  sz ← reads size;
  if sz <? n then
    while (S (Z.to_nat (n - sz))) (fun _ v => size v <? n)
          (fun _ => ele ← call_default;
                    vector_push_back ele;;
                    call_destructor ele) tt
  else if n <? sz then
    while (S (Z.to_nat (sz - n))) (fun i v => i <? size v)
          (fun i => p ← load i;
                    call_destructor p;;
                    store i None;;
                    ret (wrap (i + 1))) n;;
    modify (set_size n)
  else ret tt.

(** Addresses of slots are offsets (in slots) from [this->array]. *)
Definition vector_at (position : Z) : M Z := ret position.
Definition vector_front : M Z := ret 0.
Definition vector_back : M Z := sz ← reads size; ret (sz - 1).

(** Three cases on [position] against [size]; the last one calls
    [vector_resize] with [position] when [position] is the capacity. *)
Definition vector_set (position : Z) (element : slot elem) : M unit :=
  sz ← reads size;
  if sz <? position then ret tt
  else if position <? sz then
    p ← load position;
    call_destructor p;;
    x ← copy_or_null element;
    store position x
  else
    cap ← reads capacity;
    (if position =? cap then vector_resize position else ret tt);;
    x ← copy_or_null element;
    store position x;;
    sz' ← reads size;
    modify (set_size (wrap (sz' + 1))).

(** [assert(position < this->size)], then the slot itself. *)
Definition vector_get (position : Z) : M (slot elem) :=
  sz ← reads size;
  assert (position <? sz);;
  load position.

(** The shifting loop runs [i] from [size] down while [i >= position]; the
    fuel covers [size + 1] rounds, after which [i] would have wrapped. *)
Definition vector_insert (position : Z) (element : slot elem) : M unit :=
  sz ← reads size;
  cap ← reads capacity;
  (if sz =? cap then vector_reserve (wrap (cap + 1)) else ret tt);;
  sz ← reads size;
  while (S (S (Z.to_nat sz))) (fun i _ => position <=? i)
        (fun i => p ← load (wrap (i - 1));
                  store i p;;
                  ret (wrap (i - 1))) sz;;
  x ← copy_or_null element;
  store position x;;
  sz ← reads size;
  modify (set_size (wrap (sz + 1))).

(** The shifting loop runs [i] from [position] while [i < size] and reads
    slot [i + 1] in each round. *)
Definition vector_erase (position : Z) : M unit :=
  sz ← reads size;
  if sz <=? position then ret tt
  else
    p ← load position;
    call_destructor p;;
    while (S (Z.to_nat (sz - position))) (fun i v => i <? size v)
          (fun i => p ← load (wrap (i + 1));
                    store i p;;
                    ret (wrap (i + 1))) position;;
    sz ← reads size;
    modify (set_size (wrap (sz - 1))).

(** Only the slots that are not [NULL] are destroyed and cleared. *)
Definition vector_clear : M unit :=
  sz ← reads size;
  while (S (Z.to_nat sz)) (fun i v => i <? size v)
        (fun i => p ← load i;
                  match p with
                  | Some _ => call_destructor p;; store i None
                  | None => ret tt
                  end;;
                  ret (wrap (i + 1))) 0;;
  modify (set_size 0).

(** The loop visits the whole block, [[0, capacity)], and destroys and clears
    the slots that are not [NULL]; [free(this->array)] then leaves a block
    without slots.  [free(this)] ends the life of the struct: what is left of
    the state afterwards is the record of callback invocations. *)
Definition vector_destroy : M unit :=
  cap ← reads capacity;
  while (S (Z.to_nat cap)) (fun i v => i <? capacity v)
        (fun i => p ← load i;
                  match p with
                  | Some _ => call_destructor p;; store i None
                  | None => ret tt
                  end;;
                  ret (wrap (i + 1))) 0;;
  modify (set_array []).

(** ** Sequences of operations *)

Inductive operation : Type :=
| PushBack (element : slot elem)
| PopBack
| Insert (position : Z) (element : slot elem)
| Erase (position : Z)
| SetAt (position : Z) (element : slot elem)
| Resize (n : Z)
| Reserve (n : Z)
| Clear.

Definition run_operation (o : operation) : M unit :=
  match o with
  | PushBack x => vector_push_back x
  | PopBack => vector_pop_back
  | Insert p x => vector_insert p x
  | Erase p => vector_erase p
  | SetAt p x => vector_set p x
  | Resize n => vector_resize n
  | Reserve n => vector_reserve n
  | Clear => vector_clear
  end.

Fixpoint run_operations (os : list operation) : M unit :=
  match os with
  | [] => ret tt
  | o :: os' => run_operation o;; run_operations os'
  end.

End Vector.

(** ** Vocabulary of the statements *)

Section Vocabulary.

Context {elem : Type}.
Implicit Types (v : @vector elem) (x p : slot elem) (cs : list (@call elem)).

(** The slot that ends up in the vector when [element] is stored, and the
    callback invocations this takes. *)
Definition copy_result v (element : slot elem) : slot elem :=
  match element with
  | Some e => copy_constructor v e
  | None => None
  end.

Definition copy_calls (element : slot elem) : list (@call elem) :=
  match element with
  | Some e => [CopyCall e]
  | None => []
  end.

Definition record_calls cs v : vector :=
  mkVector (copy_constructor v) (destructor v) (default_constructor v) (array v) (size v) (capacity v)
           (calls v ++ cs).

Definition power_of_two (c : Z) : Prop := exists k, 0 <= k /\ c = 2 ^ k.

(** The representation invariant of [struct vector]. *)
Record wf v : Prop := mk_wf {
  wf_block : Z.of_nat (length (array v)) = capacity v;
  wf_size : 0 <= size v <= capacity v;
  wf_power : power_of_two (capacity v);
  wf_max : capacity v <= MAX_SLOTS
}.

(** [this->array[i]] for an index inside the block. *)
Definition slot_at v (i : Z) : slot elem := default None (array v !! Z.to_nat i).

(** The elements in [[0, size)]. *)
Definition contents v : list (slot elem) := take (Z.to_nat (size v)) (array v).

(** The vector after its block was extended to [cap] slots. *)
Definition grown (cap : Z) v : vector :=
  set_capacity cap
    (set_array (array v ++ replicate (Z.to_nat (cap - capacity v)) None) v).

(** The vector after [x] went through [copy_or_null] and into slot [size]. *)
Definition appended x v : vector :=
  set_array (<[Z.to_nat (size v) := copy_result v x]> (array v))
    (set_size (size v + 1) (record_calls (copy_calls x) v)).

Definition same_callbacks v v' : Prop :=
  copy_constructor v' = copy_constructor v /\
  destructor v' = destructor v /\
  default_constructor v' = default_constructor v.

(** The vector after its last element was destroyed and its slot cleared. *)
Definition popped v : vector :=
  set_array (<[Z.to_nat (size v - 1) := None]> (array v))
    (record_call (DestroyCall (slot_at v (size v - 1))) (set_size (size v - 1) v)).

(** The callback invocations of one round of the growing branch. *)
Definition default_round (d : slot elem) : list (@call elem) :=
  DefaultCall :: copy_calls d ++ [DestroyCall d].

(** The vector after the element at [position] was destroyed and the ones
    behind it moved down; [a'] is the block after the moves. *)
Definition erased (position : Z) (a' : list (slot elem)) v : vector :=
  set_size (size v - 1)
    (set_array a' (record_call (DestroyCall (slot_at v position)) v)).

(** The vector after the shifted block [a'] received the new element. *)
Definition inserted (position : Z) (x : slot elem) (a' : list (slot elem)) v : vector :=
  set_size (size v + 1)
    (set_array (<[Z.to_nat position := copy_result v x]> a')
       (record_calls (copy_calls x) v)).

(** The vector after the element at [position] was destroyed and a copy of
    [x] took its slot. *)
Definition overwritten (position : Z) (x : slot elem) v : vector :=
  set_array (<[Z.to_nat position := copy_result v x]> (array v))
    (record_calls (copy_calls x)
       (record_call (DestroyCall (slot_at v position)) v)).

(** Arguments of type [size_t]. *)
Definition size_t (z : Z) : Prop := 0 <= z < SIZE_MODULUS.

Definition operation_in_range (o : @operation elem) : Prop :=
  match o with
  | PushBack _ | PopBack | Clear => True
  | Insert p _ | Erase p | SetAt p _ | Resize p | Reserve p => size_t p
  end.

(** The slots behind the last element hold no payload. *)
Definition tail_clear v : Prop :=
  forall j, (Z.to_nat (size v) <= j < length (array v))%nat -> array v !! j = Some None.

(** The payloads that the block holds, slot by slot. *)
Definition live (a : list (slot elem)) : list (slot elem) :=
  filter (fun p => is_Some p) a.

(** A call that returns, with a well-formed vector. *)
Definition returns_wf (r : outcome (unit * @vector elem)) : Prop :=
  exists v', r = Done (tt, v') /\ wf v'.

(** A vector state that a caller can get to. *)
Definition reachable v : Prop :=
  exists cc dt dc os,
    Forall operation_in_range os /\
    run_operations os (vector_create cc dt dc) = Done (tt, v).

End Vocabulary.

(** A vector of integers for the concrete runs: copying adds 1000, so that a
    copy can be told from the value it was made from, and the default
    element is 7. *)
Definition example_copy (e : Z) : slot Z := Some (e + 1000).
Definition example_destructor (_ : slot Z) : unit := tt.
Definition example_default (_ : unit) : slot Z := Some 7.
Definition example_vector : @vector Z :=
  vector_create example_copy example_destructor example_default.

(** Eight pushes fill the initial block. *)
Definition eight_pushes : list (@operation Z) :=
  PushBack <$> [Some 1; Some 2; Some 3; Some 4; Some 5; Some 6; Some 7; Some 8].

Definition full_vector : @vector Z :=
  mkVector example_copy example_destructor example_default
    [Some 1001; Some 1002; Some 1003; Some 1004; Some 1005; Some 1006; Some 1007; Some 1008]
    8 8
    [CopyCall 1; CopyCall 2; CopyCall 3; CopyCall 4; CopyCall 5; CopyCall 6; CopyCall 7;
     CopyCall 8].

Definition three_vector : @vector Z :=
  mkVector example_copy example_destructor example_default
    [Some 1001; None; Some 1003; None; None; None; None; None]
    3 8 [CopyCall 1; CopyCall 3].

(** ** Facts about get_new_capacity *)

(** Linear arithmetic with the machine constants written out. *)
Ltac size_lia :=
  unfold MAX_SLOTS, SIZE_MODULUS, sizeof_ptr, INITIAL_CAPACITY, GROWTH_FACTOR in *;
  change (2 ^ 60) with 1152921504606846976 in *;
  change (2 ^ 63) with 9223372036854775808 in *;
  change (2 ^ 64) with 18446744073709551616 in *;
  lia.

Lemma wrap_small (z : Z) : 0 <= z < SIZE_MODULUS -> wrap z = z.
Proof. intros H. unfold wrap. apply Z.mod_small, H. Qed.

Lemma pow2_pos (k : Z) : 0 <= k -> 0 < 2 ^ k.
Proof. intros H. apply Z.pow_pos_nonneg; lia. Qed.

Lemma pow2_le (j k : Z) : 0 <= j <= k -> 2 ^ j <= 2 ^ k.
Proof. intros H. apply Z.pow_le_mono_r; lia. Qed.

Lemma pow2_lt_inv (j k : Z) : 0 <= j -> 0 <= k -> 2 ^ j < 2 ^ k -> j < k.
Proof. intros Hj Hk H. apply (Z.pow_lt_mono_r_iff 2); lia. Qed.

Lemma pow2_le_inv (j k : Z) : 0 <= j -> 0 <= k -> 2 ^ j <= 2 ^ k -> j <= k.
Proof. intros Hj Hk H. apply (Z.pow_le_mono_r_iff 2); lia. Qed.

Lemma pow2_double (k : Z) : 0 <= k -> 2 ^ k * GROWTH_FACTOR = 2 ^ (k + 1).
Proof. intros H. unfold GROWTH_FACTOR. rewrite Z.pow_add_r by lia. reflexivity. Qed.

Lemma get_new_capacity_loop_pow2 (fuel : nat) (target : Z) :
  target <= 2 ^ 63 ->
  forall j, 0 <= j <= 63 -> 64 - j < Z.of_nat fuel ->
  (j = 0 \/ 2 ^ (j - 1) < target) ->
  exists k, j <= k <= 63 /\
    get_new_capacity_loop fuel (2 ^ j) target = Some (2 ^ k) /\
    target <= 2 ^ k /\ (k = 0 \/ 2 ^ (k - 1) < target).
Proof.
  intros Ht. induction fuel as [|fuel IH]; intros j Hj Hfuel Hprev; [lia|].
  cbn [get_new_capacity_loop].
  destruct (Z.ltb_spec (2 ^ j) target) as [Hlt|Hge].
  - assert (j < 63) as Hj63.
    { destruct (Z.eq_dec j 63) as [->|]; lia. }
    rewrite pow2_double by lia.
    rewrite wrap_small.
    2:{ split; [apply Z.lt_le_incl, pow2_pos; lia|].
        unfold SIZE_MODULUS. apply Z.pow_lt_mono_r; lia. }
    destruct (IH (j + 1)) as (k & Hk & Hloop & Hle & Hmin); [lia|lia| |].
    { right. replace (j + 1 - 1) with j by lia. exact Hlt. }
    exists k. repeat split; try lia; assumption.
  - exists j. repeat split; try lia; assumption.
Qed.

Lemma get_new_capacity_loop_zero (fuel : nat) (target : Z) :
  0 < target -> get_new_capacity_loop fuel 0 target = None.
Proof.
  intros Ht. induction fuel as [|fuel IH]; [reflexivity|].
  cbn [get_new_capacity_loop].
  destruct (Z.ltb_spec 0 target); [|lia]. exact IH.
Qed.

Lemma get_new_capacity_loop_overflow (fuel : nat) (target : Z) :
  2 ^ 63 < target ->
  forall j, 0 <= j <= 63 -> get_new_capacity_loop fuel (2 ^ j) target = None.
Proof.
  intros Ht. induction fuel as [|fuel IH]; intros j Hj; [reflexivity|].
  cbn [get_new_capacity_loop].
  assert (2 ^ j <= 2 ^ 63) by (apply pow2_le; lia).
  destruct (Z.ltb_spec (2 ^ j) target); [|lia].
  rewrite pow2_double by lia.
  destruct (Z.eq_dec j 63) as [->|Hne].
  - change (wrap (2 ^ (63 + 1))) with 0.
    apply get_new_capacity_loop_zero. lia.
  - rewrite wrap_small.
    + apply IH. lia.
    + split; [apply Z.lt_le_incl, pow2_pos; lia|].
      unfold SIZE_MODULUS. apply Z.pow_lt_mono_r; lia.
Qed.

Lemma get_new_capacity_loop_mono (fuel extra : nat) (c target r : Z) :
  get_new_capacity_loop fuel c target = Some r ->
  get_new_capacity_loop (fuel + extra) c target = Some r.
Proof.
  revert c. induction fuel as [|fuel IH]; intros c; [discriminate|].
  cbn [get_new_capacity_loop Nat.add].
  destruct (c <? target); [apply IH|trivial].
Qed.

(** The result of [get_new_capacity] does not depend on the bound of 65
    rounds: any larger number of rounds gives the same answer, and below
    [2 ^ 63] the answer is the least power of two that reaches the target. *)
Lemma get_new_capacity_loop_more_fuel (fuel : nat) (target : Z) :
  (65 <= fuel)%nat ->
  get_new_capacity_loop fuel 1 target = get_new_capacity target.
Proof.
  intros Hfuel. unfold get_new_capacity.
  destruct (Z.le_gt_cases target (2 ^ 63)) as [Hle|Hgt].
  - destruct (get_new_capacity_loop_pow2 65 target Hle 0) as (k & _ & Hk & _);
      [lia|lia|now left|].
    change (2 ^ 0) with 1 in Hk. rewrite Hk.
    replace fuel with (65 + (fuel - 65))%nat by lia.
    now apply get_new_capacity_loop_mono.
  - pose proof (get_new_capacity_loop_overflow 65 target Hgt 0) as H1.
    pose proof (get_new_capacity_loop_overflow fuel target Hgt 0) as H2.
    change (2 ^ 0) with 1 in H1, H2. rewrite H1, H2 by lia. reflexivity.
Qed.

Lemma get_new_capacity_pow2 (target : Z) :
  target <= 2 ^ 63 ->
  exists k, 0 <= k <= 63 /\ get_new_capacity target = Some (2 ^ k) /\
    target <= 2 ^ k /\ (k = 0 \/ 2 ^ (k - 1) < target).
Proof.
  intros Ht.
  destruct (get_new_capacity_loop_pow2 65 target Ht 0) as (k & Hk & Hloop & H);
    [lia|lia|now left|].
  exists k. repeat split; try lia; tauto.
Qed.

Lemma get_new_capacity_overflow (target : Z) :
  2 ^ 63 < target -> get_new_capacity target = None.
Proof. intros Ht. apply (get_new_capacity_loop_overflow 65 target Ht 0). lia. Qed.

(** ** Running the monad *)

Section VectorFacts.

Context {elem : Type}.
Implicit Types (v : @vector elem) (x p : slot elem) (cs : list (@call elem)).

Lemma set_array_same v : set_array (array v) v = v.
Proof. by destruct v. Qed.

Lemma record_calls_nil v : record_calls [] v = v.
Proof. destruct v. unfold record_calls. cbn. by rewrite app_nil_r. Qed.

Lemma bind_run {A B} (m : M A) (k : A -> M B) v :
  (m ≫= k) v =
  match m v with
  | Done (a, v') => k a v'
  | AssertFail => AssertFail
  | OutOfBounds => OutOfBounds
  | Diverges => Diverges
  end.
Proof. reflexivity. Qed.

Lemma bind_done {A B} (m : M A) (k : A -> M B) v a v' :
  m v = Done (a, v') -> (m ≫= k) v = k a v'.
Proof. intros H. rewrite bind_run. by rewrite H. Qed.

Lemma bind_out_of_bounds {A B} (m : M A) (k : A -> M B) v :
  m v = OutOfBounds -> (m ≫= k) v = OutOfBounds.
Proof. intros H. rewrite bind_run. by rewrite H. Qed.

Lemma bind_reads {A B} (f : vector -> A) (k : A -> M B) v :
  (reads f ≫= k) v = k (f v) v.
Proof. reflexivity. Qed.

Lemma bind_modify {B} (f : vector -> vector) (k : unit -> M B) v :
  (modify f ≫= k) v = k tt (f v).
Proof. reflexivity. Qed.

Lemma bind_ret {A B} (a : A) (k : A -> M B) v : (ret a ≫= k) v = k a v.
Proof. reflexivity. Qed.

Lemma bind_call_destructor {B} p (k : unit -> M B) v :
  (call_destructor p ≫= k) v = k (destructor v p) (record_call (DestroyCall p) v).
Proof. reflexivity. Qed.

Lemma store_in i x v :
  0 <= i < Z.of_nat (length (array v)) ->
  store i x v = Done (tt, set_array (<[Z.to_nat i := x]> (array v)) v).
Proof.
  intros H. unfold store.
  destruct (Z.leb_spec 0 i); [|lia].
  destruct (Z.ltb_spec i (Z.of_nat (length (array v)))); [done|lia].
Qed.

Lemma store_out i x v :
  ~ 0 <= i < Z.of_nat (length (array v)) -> store i x v = OutOfBounds.
Proof.
  intros H. unfold store.
  destruct (Z.leb_spec 0 i); [|done].
  destruct (Z.ltb_spec i (Z.of_nat (length (array v)))); [lia|done].
Qed.

Lemma load_in i v :
  0 <= i < Z.of_nat (length (array v)) -> load i v = Done (slot_at v i, v).
Proof.
  intros H. unfold load.
  destruct (Z.leb_spec 0 i); [|lia].
  destruct (Z.ltb_spec i (Z.of_nat (length (array v)))); [done|lia].
Qed.

Lemma load_out i v :
  ~ 0 <= i < Z.of_nat (length (array v)) -> load i v = OutOfBounds.
Proof.
  intros H. unfold load.
  destruct (Z.leb_spec 0 i); [|done].
  destruct (Z.ltb_spec i (Z.of_nat (length (array v)))); [lia|done].
Qed.

Lemma copy_or_null_run x v :
  copy_or_null x v = Done (copy_result v x, record_calls (copy_calls x) v).
Proof.
  destruct x as [e|]; cbn; [done|].
  unfold ret. by rewrite record_calls_nil.
Qed.

(** ** vector_reserve *)

Lemma null_fill_loop (fuel : nat) (cap : Z) :
  cap < SIZE_MODULUS ->
  forall i v,
  0 <= i <= cap -> cap = Z.of_nat (length (array v)) ->
  (forall j, (Z.to_nat i <= j < Z.to_nat cap)%nat -> array v !! j = Some None) ->
  cap - i < Z.of_nat fuel ->
  while fuel (fun i _ => i <? cap) (fun i => store i None;; ret (wrap (i + 1))) i v
  = Done (cap, v).
Proof.
  intros Hcap. induction fuel as [|fuel IH]; intros i v Hi Hlen Hnull Hfuel; [lia|].
  cbn [while].
  destruct (Z.ltb_spec i cap) as [Hlt|Hge].
  - rewrite (bind_done _ _ _ _ _ (store_in i None v ltac:(lia))).
    rewrite list_insert_id by (apply Hnull; lia).
    rewrite set_array_same. unfold ret at 1.
    rewrite wrap_small by lia.
    apply IH; [lia|done| |lia].
    intros j Hj. apply Hnull. lia.
  - by replace i with cap by lia.
Qed.

Lemma realloc_grow (block : list (slot elem)) (cap : Z) :
  Z.of_nat (length block) <= cap <= MAX_SLOTS ->
  realloc block (wrap (cap * sizeof_ptr))
  = block ++ replicate (Z.to_nat (cap - Z.of_nat (length block))) None.
Proof.
  intros H. unfold realloc.
  rewrite wrap_small by size_lia.
  unfold sizeof_ptr. rewrite Z.div_mul by lia.
  rewrite take_ge by lia.
  f_equal. f_equal. lia.
Qed.

Lemma realloc_zero (block : list (slot elem)) : realloc block 0 = [].
Proof. unfold realloc. change (Z.to_nat (0 / sizeof_ptr)) with 0%nat. done. Qed.

Lemma vector_reserve_noop v n : n <= capacity v -> vector_reserve n v = Done (tt, v).
Proof.
  intros H. unfold vector_reserve. rewrite bind_reads.
  by destruct (Z.leb_spec n (capacity v)); [|lia].
Qed.

Lemma vector_reserve_grow v n cap :
  Z.of_nat (length (array v)) = capacity v ->
  capacity v < n ->
  get_new_capacity n = Some cap ->
  n <= cap <= MAX_SLOTS ->
  vector_reserve n v = Done (tt, grown cap v).
Proof.
  intros Hblock Hn Hcap Hmax. unfold vector_reserve. rewrite bind_reads.
  destruct (Z.leb_spec n (capacity v)); [lia|].
  rewrite Hcap. rewrite (bind_done _ _ _ cap v) by done.
  rewrite bind_modify. rewrite realloc_grow by lia. rewrite Hblock.
  erewrite bind_done.
  2:{ apply null_fill_loop.
      - size_lia.
      - lia.
      - cbn. rewrite length_app, length_replicate. lia.
      - intros j Hj. cbn. rewrite lookup_app_r by lia.
        apply lookup_replicate_2. lia.
      - lia. }
  reflexivity.
Qed.

Lemma while_first_out_of_bounds {L} (fuel : nat) (cond : L -> @vector elem -> bool)
    (body : L -> M L) (l : L) v :
  cond l v = true -> body l v = OutOfBounds ->
  while (S fuel) cond body l v = OutOfBounds.
Proof. intros Hc Hb. cbn [while]. by rewrite Hc, Hb. Qed.

Lemma wrap_bytes_overflow (k : Z) : 61 <= k -> wrap (2 ^ k * sizeof_ptr) = 0.
Proof.
  intros Hk. unfold wrap, sizeof_ptr, SIZE_MODULUS.
  replace (2 ^ k * 8) with (2 ^ (k - 61) * 2 ^ 64).
  - apply Z.mod_mul. lia.
  - replace k with ((k - 61) + 61) at 2 by lia.
    rewrite Z.pow_add_r by lia. lia.
Qed.

(** Between [MAX_SLOTS] and [2 ^ 63] the new capacity exists, but its size
    in bytes wraps to 0: the block that comes back has no slot and the loop
    that clears the new slots writes outside of it. *)
Lemma vector_reserve_wraps v n :
  capacity v < n -> MAX_SLOTS < n <= 2 ^ 63 -> 0 <= capacity v ->
  vector_reserve n v = OutOfBounds.
Proof.
  intros Hn Hbig Hcap. unfold vector_reserve. rewrite bind_reads.
  destruct (Z.leb_spec n (capacity v)); [lia|].
  destruct (get_new_capacity_pow2 n) as (k & Hk & Hrun & Hle & _); [lia|].
  rewrite Hrun. rewrite (bind_done _ _ _ (2 ^ k) v) by done.
  rewrite bind_modify.
  assert (60 < k) as Hk60.
  { apply pow2_lt_inv; [lia|lia|]. unfold MAX_SLOTS in *. lia. }
  rewrite wrap_bytes_overflow by lia. rewrite realloc_zero.
  apply bind_out_of_bounds.
  apply while_first_out_of_bounds.
  - apply Z.ltb_lt. lia.
  - apply bind_out_of_bounds. apply store_out. cbn. lia.
Qed.

Lemma vector_reserve_overflow v n :
  capacity v < n -> 2 ^ 63 < n -> vector_reserve n v = Diverges.
Proof.
  intros Hn Hbig. unfold vector_reserve. rewrite bind_reads.
  destruct (Z.leb_spec n (capacity v)); [lia|].
  by rewrite get_new_capacity_overflow.
Qed.

(** [get_new_capacity] returns the least power of two that reaches the
    target. *)
Lemma get_new_capacity_least (target c : Z) :
  target <= 2 ^ 63 ->
  get_new_capacity target = Some c ->
  power_of_two c /\ target <= c /\
  forall c', power_of_two c' -> target <= c' -> c <= c'.
Proof.
  intros Ht Hc.
  destruct (get_new_capacity_pow2 target Ht) as (k & Hk & Hrun & Hle & Hmin).
  rewrite Hrun in Hc. injection Hc as <-.
  split; [exists k; split; [lia|done]|]. split; [done|].
  intros c' (j & Hj & ->) Hc'.
  destruct Hmin as [->|Hmin].
  - change (2 ^ 0) with 1. pose proof (pow2_pos j Hj). lia.
  - apply pow2_le; split; [lia|].
    assert (k - 1 < j); [|lia].
    destruct (Z.le_gt_cases 0 (k - 1)); [|lia].
    apply pow2_lt_inv; lia.
Qed.

Lemma get_new_capacity_next (k : Z) :
  0 <= k < 63 -> get_new_capacity (2 ^ k + 1) = Some (2 ^ (k + 1)).
Proof.
  intros Hk.
  assert (2 ^ k + 1 <= 2 ^ 63) as Ht.
  { assert (2 ^ k < 2 ^ 63) by (apply Z.pow_lt_mono_r; lia). lia. }
  destruct (get_new_capacity_pow2 _ Ht) as (k' & Hk' & Hrun & Hle & Hmin).
  rewrite Hrun. f_equal. f_equal.
  assert (k < k') by (apply pow2_lt_inv; lia).
  destruct Hmin as [->|Hmin]; [lia|].
  assert (k' - 1 <= k); [|lia].
  apply pow2_le_inv; lia.
Qed.

(** ** vector_push_back *)

Lemma vector_push_back_room v x :
  Z.of_nat (length (array v)) = capacity v ->
  0 <= size v < capacity v ->
  capacity v <= MAX_SLOTS ->
  vector_push_back x v = Done (tt, appended x v).
Proof.
  intros Hblock Hsize Hmax. unfold vector_push_back.
  rewrite !bind_reads.
  destruct (Z.eqb_spec (size v) (capacity v)); [lia|].
  rewrite bind_ret.
  rewrite (bind_done _ _ _ _ _ (copy_or_null_run x v)).
  rewrite bind_reads, bind_modify.
  rewrite store_in by (cbn; lia).
  cbn. rewrite wrap_small by size_lia. reflexivity.
Qed.

Lemma vector_push_back_full v x :
  wf v ->
  size v = capacity v ->
  2 * capacity v <= MAX_SLOTS ->
  vector_push_back x v = Done (tt, appended x (grown (2 * capacity v) v)).
Proof.
  intros [Hblock Hsize (k & Hk & Hpow) Hmax] Hfull Hdouble.
  unfold vector_push_back. rewrite !bind_reads.
  destruct (Z.eqb_spec (size v) (capacity v)); [|lia].
  assert (k < 60) as Hk60.
  { apply pow2_lt_inv; [lia|lia|].
    assert (2 ^ k < 2 ^ k * 2) by (pose proof (pow2_pos k Hk); lia).
    unfold MAX_SLOTS in *. lia. }
  assert (2 * capacity v = 2 ^ (k + 1)) as Hnext.
  { rewrite Hpow, Z.pow_add_r by lia. lia. }
  rewrite wrap_small by (pose proof (pow2_pos k Hk); size_lia).
  erewrite bind_done.
  2:{ apply (vector_reserve_grow v _ (2 * capacity v)); [done|lia| |lia].
      rewrite Hnext, Hpow. apply get_new_capacity_next. lia. }
  rewrite (bind_done _ _ _ _ _ (copy_or_null_run x _)).
  rewrite bind_reads, bind_modify.
  rewrite store_in.
  2:{ cbn. rewrite length_app, length_replicate. lia. }
  cbn. rewrite wrap_small by size_lia. reflexivity.
Qed.

Lemma wf_capacity_pos v : wf v -> 0 < capacity v.
Proof. intros [_ _ (k & Hk & ->) _]. by apply pow2_pos. Qed.

Lemma wf_grown v cap :
  wf v -> capacity v <= cap <= MAX_SLOTS -> power_of_two cap -> wf (grown cap v).
Proof.
  intros [Hblock Hsize Hpow Hmax] Hcap Hpow'. split; cbn; [|lia|done|lia].
  rewrite length_app, length_replicate. lia.
Qed.

Lemma contents_grown v cap :
  wf v -> contents (grown cap v) = contents v.
Proof.
  intros [Hblock Hsize _ _]. unfold contents. cbn.
  apply take_app_le. lia.
Qed.

Lemma wf_appended v x :
  wf v -> size v < capacity v -> wf (appended x v).
Proof.
  intros [Hblock Hsize Hpow Hmax] Hroom. split; cbn; [|lia|done|done].
  by rewrite length_insert.
Qed.

Lemma contents_appended v x :
  wf v -> size v < capacity v ->
  contents (appended x v) = contents v ++ [copy_result v x].
Proof.
  intros [Hblock Hsize _ _] Hroom. unfold contents. cbn.
  replace (Z.to_nat (size v + 1)) with (S (Z.to_nat (size v))) by lia.
  erewrite take_S_r by (apply list_lookup_insert_eq; lia).
  by rewrite take_insert_ge by lia.
Qed.

(** What one [vector_push_back] does to a well-formed vector that holds
    fewer than [MAX_SLOTS] elements. *)
Lemma vector_push_back_spec v x :
  wf v -> size v < MAX_SLOTS ->
  exists v',
    vector_push_back x v = Done (tt, v') /\
    wf v' /\
    size v' = size v + 1 /\
    contents v' = contents v ++ [copy_result v x] /\
    calls v' = calls v ++ copy_calls x /\
    capacity v' = (if size v =? capacity v then 2 * capacity v else capacity v) /\
    same_callbacks v v'.
Proof.
  intros Hwf Hmax. pose proof Hwf as [Hblock Hsize Hpow Hcapmax].
  pose proof (wf_capacity_pos v Hwf) as Hpos.
  destruct (Z.eqb_spec (size v) (capacity v)) as [Hfull|Hroom].
  - assert (2 * capacity v <= MAX_SLOTS) as Hdouble.
    { destruct Hpow as (k & Hk & Hpow).
      assert (k < 60).
      { apply pow2_lt_inv; [lia|lia|]. unfold MAX_SLOTS in *. lia. }
      replace (2 * capacity v) with (2 ^ (k + 1))
        by (rewrite Hpow, Z.pow_add_r by lia; lia).
      apply pow2_le. lia. }
    assert (wf (grown (2 * capacity v) v)) as Hwf'.
    { apply wf_grown; [done|lia|].
      destruct Hpow as (k & Hk & Hpow). exists (k + 1). split; [lia|].
      rewrite Hpow, Z.pow_add_r by lia. lia. }
    exists (appended x (grown (2 * capacity v) v)).
    split; [by apply vector_push_back_full|].
    split; [apply wf_appended; [done|cbn; lia]|].
    split; [done|].
    split; [rewrite contents_appended by (done || cbn; lia);
            by rewrite contents_grown|].
    by repeat split.
  - exists (appended x v).
    split; [apply vector_push_back_room; [done|lia|done]|].
    split; [apply wf_appended; [done|lia]|].
    split; [done|].
    split; [apply contents_appended; [done|lia]|].
    by repeat split.
Qed.

(** A push into a full block of [MAX_SLOTS] slots asks [realloc] for
    [2 ^ 61 * 8] bytes, which is 0 in 64 bits. *)
Lemma vector_push_back_overflow v x :
  wf v -> size v = capacity v -> capacity v = MAX_SLOTS ->
  vector_push_back x v = OutOfBounds.
Proof.
  intros [Hblock Hsize Hpow Hmax] Hfull Hcap.
  unfold vector_push_back. rewrite !bind_reads.
  destruct (Z.eqb_spec (size v) (capacity v)); [|lia].
  apply bind_out_of_bounds.
  rewrite wrap_small by size_lia.
  apply vector_reserve_wraps; [lia|size_lia|lia].
Qed.

(** ** vector_get *)

Lemma vector_get_in v i :
  Z.of_nat (length (array v)) = capacity v -> size v <= capacity v ->
  0 <= i < size v ->
  vector_get i v = Done (slot_at v i, v).
Proof.
  intros Hblock Hsize Hi. unfold vector_get. rewrite bind_reads.
  destruct (Z.ltb_spec i (size v)); [|lia].
  unfold assert. rewrite (bind_done _ _ _ tt v) by done.
  apply load_in. lia.
Qed.

Lemma vector_get_out v i : size v <= i -> vector_get i v = AssertFail.
Proof.
  intros Hi. unfold vector_get. rewrite bind_reads.
  by destruct (Z.ltb_spec i (size v)); [lia|].
Qed.

Lemma slot_at_contents v i a :
  contents v !! i = Some a -> slot_at v (Z.of_nat i) = a.
Proof.
  unfold contents, slot_at. intros [H _]%lookup_take_Some.
  by rewrite Nat2Z.id, H.
Qed.

(** ** Sequences of pushes *)

Lemma run_operations_app (os1 os2 : list (@operation elem)) v :
  run_operations (os1 ++ os2) v = (run_operations os1;; run_operations os2) v.
Proof.
  revert v. induction os1 as [|o os1 IH]; intros v; [done|].
  cbn [app run_operations]. rewrite !bind_run.
  destruct (run_operation o v) as [[[] v']| | |]; [|done..].
  rewrite IH. by rewrite bind_run.
Qed.

Lemma copy_result_same_callbacks v v' x :
  same_callbacks v v' -> copy_result v' x = copy_result v x.
Proof. intros (Hc & _ & _). destruct x; cbn; by rewrite ?Hc. Qed.

Lemma wf_create (cc : elem -> slot elem) (dt : slot elem -> unit)
    (dc : unit -> slot elem) :
  wf (vector_create cc dt dc).
Proof.
  split; cbn; [done|size_lia| |size_lia].
  exists 3. split; [lia|done].
Qed.

Lemma push_backs_spec (xs : list (slot elem)) :
  forall v,
  wf v -> size v + Z.of_nat (length xs) <= MAX_SLOTS ->
  exists v',
    run_operations (PushBack <$> xs) v = Done (tt, v') /\
    wf v' /\
    size v' = size v + Z.of_nat (length xs) /\
    contents v' = contents v ++ (copy_result v <$> xs) /\
    calls v' = calls v ++ concat (copy_calls <$> xs) /\
    same_callbacks v v' /\
    (size v + Z.of_nat (length xs) <= capacity v -> capacity v' = capacity v).
Proof.
  induction xs as [|x xs IH]; intros v Hwf Hmax.
  - exists v. cbn. rewrite !app_nil_r.
    split; [done|]. split; [done|]. split; [lia|]. by repeat split.
  - cbn [length] in Hmax.
    destruct (vector_push_back_spec v x Hwf) as
      (v1 & Hrun1 & Hwf1 & Hsize1 & Hcont1 & Hcalls1 & Hcap1 & Hcb1); [lia|].
    destruct (IH v1 Hwf1) as
      (v2 & Hrun2 & Hwf2 & Hsize2 & Hcont2 & Hcalls2 & Hcb2 & Hcap2); [lia|].
    exists v2. cbn [fmap list_fmap run_operations run_operation].
    split; [by rewrite (bind_done _ _ _ _ _ Hrun1)|].
    split; [done|]. split; [cbn [length]; lia|].
    split.
    { rewrite Hcont2, Hcont1, <- app_assoc. cbn. do 2 f_equal.
      apply list_fmap_ext. intros _ y _. by apply copy_result_same_callbacks. }
    split.
    { rewrite Hcalls2, Hcalls1, <- app_assoc. done. }
    split.
    { destruct Hcb1 as (? & ? & ?), Hcb2 as (? & ? & ?). repeat split; congruence. }
    cbn [length]. intros Hroom.
    destruct (Z.eqb_spec (size v) (capacity v)); [lia|].
    rewrite Hcap2 by lia. done.
Qed.

(** ** vector_pop_back and vector_back *)

Lemma vector_pop_back_nonempty v :
  wf v -> 0 < size v -> vector_pop_back v = Done (tt, popped v).
Proof.
  intros [Hblock Hsize _ Hmax] Hpos. unfold vector_pop_back.
  rewrite bind_reads, bind_modify, bind_reads.
  cbn [size set_size]. rewrite wrap_small by size_lia.
  erewrite bind_done by (apply load_in; cbn; lia).
  rewrite bind_call_destructor, bind_reads.
  rewrite store_in by (cbn; lia). reflexivity.
Qed.

Lemma vector_pop_back_empty v :
  size v = 0 -> Z.of_nat (length (array v)) < SIZE_MODULUS ->
  vector_pop_back v = OutOfBounds.
Proof.
  intros Hsize Hblock. unfold vector_pop_back.
  rewrite bind_reads, bind_modify, bind_reads. rewrite Hsize.
  apply bind_out_of_bounds. apply load_out. cbn [size set_size array].
  change (wrap (0 - 1)) with (SIZE_MODULUS - 1). lia.
Qed.

Lemma vector_back_run v : vector_back v = Done (size v - 1, v).
Proof. reflexivity. Qed.

(** ** vector_resize *)

Lemma drop_lookup_cons {A} (l : list A) (i : nat) (a : A) :
  l !! i = Some a -> drop i l = a :: drop (S i) l.
Proof.
  revert i. induction l as [|b l IH]; intros [|i] H; try done.
  - by injection H as ->.
  - cbn. by apply IH.
Qed.

(** The loop of the shrinking branch, started at index [i]. *)
Lemma resize_shrink_loop (fuel : nat) :
  forall i v,
  Z.of_nat (length (array v)) = capacity v -> capacity v <= MAX_SLOTS ->
  0 <= i <= size v -> size v <= capacity v ->
  size v - i < Z.of_nat fuel ->
  exists v',
    while fuel (fun i v => i <? size v)
      (fun i => p ← load i; call_destructor p;; store i None;; ret (wrap (i + 1)))
      i v = Done (size v, v') /\
    size v' = size v /\ capacity v' = capacity v /\
    length (array v') = length (array v) /\
    (forall j, (j < Z.to_nat i)%nat -> array v' !! j = array v !! j) /\
    (forall j, (Z.to_nat i <= j < Z.to_nat (size v))%nat -> array v' !! j = Some None) /\
    calls v' = calls v ++
      (DestroyCall <$> take (Z.to_nat (size v - i)) (drop (Z.to_nat i) (array v))) /\
    same_callbacks v v'.
Proof.
  induction fuel as [|fuel IH]; intros i v Hblock Hmax Hi Hsize Hfuel; [lia|].
  cbn [while].
  destruct (Z.ltb_spec i (size v)) as [Hlt|Hge].
  - rewrite (bind_done _ _ _ _ _ (load_in i v ltac:(lia))).
    rewrite bind_call_destructor.
    erewrite bind_done by (apply store_in; cbn; lia).
    unfold ret at 1. rewrite wrap_small by size_lia.
    set (v1 := set_array _ _).
    destruct (IH (i + 1) v1) as
      (v' & Hrun & Hsz & Hcap & Hlen & Hlow & Hnull & Hcalls & Hcb);
      [subst v1; cbn; by rewrite length_insert|done|subst v1; cbn; lia..|].
    exists v'. subst v1. cbn in *. rewrite length_insert in Hlen.
    split; [done|]. split; [done|]. split; [done|]. split; [done|].
    split.
    { intros j Hj. rewrite Hlow by lia. apply list_lookup_insert_ne. lia. }
    split.
    { intros j Hj. destruct (decide (j = Z.to_nat i)) as [->|Hne].
      - rewrite Hlow by lia. apply list_lookup_insert_eq. lia.
      - apply Hnull. lia. }
    split; [|done].
    rewrite Hcalls, <- app_assoc. f_equal.
    destruct (lookup_lt_is_Some_2 (array v) (Z.to_nat i)) as [a Ha]; [lia|].
    rewrite (drop_lookup_cons _ _ _ Ha).
    replace (Z.to_nat (size v - i)) with (S (Z.to_nat (size v - (i + 1)))) by lia.
    cbn. unfold slot_at. rewrite Ha. cbn. do 3 f_equal.
    replace (Z.to_nat (i + 1)) with (S (Z.to_nat i)) by lia.
    apply drop_insert_lt. lia.
  - exists v. replace i with (size v) by lia.
    rewrite Z.sub_diag. cbn. rewrite app_nil_r.
    split; [done|]. split; [done|]. split; [done|]. split; [done|].
    split; [done|]. split; [intros j Hj; lia|]. by repeat split.
Qed.

Lemma wf_record_call v (c : @call elem) : wf v -> wf (record_call c v).
Proof. by intros []. Qed.

Lemma take_ext {A} (l1 l2 : list A) (n : nat) :
  (forall j, (j < n)%nat -> l1 !! j = l2 !! j) -> take n l1 = take n l2.
Proof.
  intros H. apply list_eq. intros j.
  destruct (decide (j < n)%nat).
  - rewrite !lookup_take_lt by done. by apply H.
  - by rewrite !lookup_take_ge by lia.
Qed.

(** The loop of the growing branch, with room for [n] elements. *)
Lemma resize_grow_loop (fuel : nat) (n : Z) :
  forall (l : unit) v,
  wf v -> size v <= n <= capacity v ->
  n - size v < Z.of_nat fuel ->
  exists v',
    while fuel (fun _ v => size v <? n)
      (fun _ => ele ← call_default; vector_push_back ele;; call_destructor ele)
      l v = Done (tt, v') /\
    wf v' /\ size v' = n /\ capacity v' = capacity v /\
    contents v' = contents v ++
      replicate (Z.to_nat (n - size v)) (copy_result v (default_constructor v tt)) /\
    calls v' = calls v ++
      concat (replicate (Z.to_nat (n - size v)) (default_round (default_constructor v tt))) /\
    same_callbacks v v'.
Proof.
  induction fuel as [|fuel IH]; intros l v Hwf Hn Hfuel; [lia|].
  pose proof Hwf as [Hblock Hsize _ Hmax].
  cbn [while].
  destruct (Z.ltb_spec (size v) n) as [Hlt|Hge].
  - unfold call_default at 1. rewrite bind_run. cbn match.
    set (d := default_constructor v tt).
    set (v0 := record_call DefaultCall v).
    assert (wf v0) as Hwf0 by by apply wf_record_call.
    pose proof Hwf0 as [Hblock0 Hsize0 _ Hmax0].
    rewrite (bind_done _ _ _ _ _
               (vector_push_back_room v0 d Hblock0 ltac:(subst v0; cbn; lia) Hmax0)).
    unfold call_destructor.
    set (v1 := record_call (DestroyCall d) (appended d v0)).
    assert (wf v1) as Hwf1.
    { apply wf_record_call, wf_appended; [done|subst v0; cbn; lia]. }
    destruct (IH (destructor (appended d v0) d) v1 Hwf1) as
      (v' & Hrun & Hwf' & Hsz & Hcap & Hcont & Hcalls & Hcb);
      [subst v1 v0; cbn; lia..|].
    exists v'. split; [done|]. split; [done|]. split; [done|].
    split; [by rewrite Hcap|].
    replace (Z.to_nat (n - size v)) with (S (Z.to_nat (n - size v1)))
      by (subst v1 v0; cbn; lia).
    split.
    { rewrite Hcont. change (contents v1) with (contents (appended d v0)).
      rewrite contents_appended by (done || subst v0; cbn; lia).
      rewrite <- app_assoc. done. }
    split.
    { rewrite Hcalls. subst v1 v0. cbn. rewrite <- !app_assoc. done. }
    destruct Hcb as (? & ? & ?). by repeat split.
  - exists v. replace (n - size v) with 0 by lia. cbn. rewrite !app_nil_r.
    destruct l.
    split; [done|]. split; [done|]. split; [lia|]. by repeat split.
Qed.

Lemma get_new_capacity_within (n : Z) :
  n <= MAX_SLOTS ->
  exists cap, get_new_capacity n = Some cap /\ power_of_two cap /\
    n <= cap <= MAX_SLOTS /\
    forall c', power_of_two c' -> n <= c' -> cap <= c'.
Proof.
  intros Hn.
  assert (n <= 2 ^ 63) as Hn63 by size_lia.
  destruct (get_new_capacity_pow2 n Hn63) as (k & Hk & Hrun & _).
  destruct (get_new_capacity_least n _ Hn63 Hrun) as (Hpow & Hle & Hleast).
  exists (2 ^ k). split; [done|]. split; [done|]. split; [|done].
  split; [done|]. apply Hleast; [|done].
  exists 60. split; [lia|done].
Qed.

Lemma same_callbacks_refl v : same_callbacks v v.
Proof. by repeat split. Qed.

(** What [vector_resize] does for a target of at most [MAX_SLOTS]. *)
Lemma vector_resize_spec v n :
  wf v -> 0 <= n <= MAX_SLOTS ->
  exists v',
    vector_resize n v = Done (tt, v') /\
    wf v' /\ size v' = n /\ same_callbacks v v' /\
    (capacity v < n -> get_new_capacity n = Some (capacity v')) /\
    (n <= capacity v -> capacity v' = capacity v) /\
    (size v < n ->
       contents v' = contents v ++
         replicate (Z.to_nat (n - size v)) (copy_result v (default_constructor v tt)) /\
       calls v' = calls v ++
         concat (replicate (Z.to_nat (n - size v))
                   (default_round (default_constructor v tt)))) /\
    (n < size v ->
       contents v' = take (Z.to_nat n) (contents v) /\
       (forall j, n <= j < size v -> array v' !! Z.to_nat j = Some None) /\
       calls v' = calls v ++ (DestroyCall <$> drop (Z.to_nat n) (contents v))) /\
    (n = size v -> v' = v).
Proof.
  intros Hwf Hn. pose proof Hwf as [Hblock Hsize Hpow Hmax].
  unfold vector_resize. rewrite bind_reads.
  destruct (Z.ltb_spec (capacity v) n) as [Hgrow|Hfit].
  - destruct (get_new_capacity_within n) as (cap & Hrun & Hpow' & Hcap & _); [lia|].
    rewrite (bind_done _ _ _ _ _ (vector_reserve_grow v n cap Hblock Hgrow Hrun Hcap)).
    rewrite bind_reads. cbn [size grown set_capacity set_array].
    destruct (Z.ltb_spec (size v) n); [|lia].
    assert (wf (grown cap v)) as Hwf1 by (apply wf_grown; [done|lia|done]).
    destruct (resize_grow_loop (S (Z.to_nat (n - size v))) n tt (grown cap v) Hwf1)
      as (v' & Hloop & Hwf' & Hsz & Hcap' & Hcont & Hcalls & Hcb);
      [cbn; lia..|].
    exists v'. split; [done|]. split; [done|]. split; [done|].
    split; [done|].
    split; [intros _; by rewrite Hcap'|].
    split; [lia|].
    split; [|split; intros; lia].
    intros _. rewrite contents_grown in Hcont by done. done.
  - rewrite bind_ret, bind_reads.
    destruct (Z.ltb_spec (size v) n) as [Hup|Hnup].
    + destruct (resize_grow_loop (S (Z.to_nat (n - size v))) n tt v Hwf)
        as (v' & Hloop & Hwf' & Hsz & Hcap' & Hcont & Hcalls & Hcb); [lia..|].
      exists v'. split; [done|]. split; [done|]. split; [done|].
      split; [done|]. split; [lia|]. split; [done|].
      split; [done|]. split; intros; lia.
    + destruct (Z.ltb_spec n (size v)) as [Hdown|Hsame].
      * destruct (resize_shrink_loop (S (Z.to_nat (size v - n))) n v)
          as (v' & Hloop & Hsz & Hcap' & Hlen & Hlow & Hnull & Hcalls & Hcb);
          [done|done|lia|lia|lia|].
        rewrite (bind_done _ _ _ _ _ Hloop).
        exists (set_size n v').
        split; [done|].
        split.
        { split; cbn; [lia|lia|by rewrite Hcap'|lia]. }
        split; [done|]. split; [done|]. split; [lia|]. split; [done|].
        split; [intros; lia|]. split; [|intros; lia].
        intros _. split; [|split].
        -- unfold contents. cbn. rewrite take_take.
           rewrite Nat.min_l by lia. by apply take_ext.
        -- intros j Hj. cbn. apply Hnull. lia.
        -- cbn. rewrite Hcalls. do 2 f_equal. unfold contents.
           rewrite take_drop_commute. do 2 f_equal. lia.
      * exists v. split; [done|]. split; [done|]. split; [lia|].
        split; [apply same_callbacks_refl|]. split; [lia|]. split; [done|].
        split; [intros; lia|]. split; [intros; lia|]. done.
Qed.

(** ** vector_erase *)

(** The shifting loop of [vector_erase] started at index [i], when the
    block has a slot behind the last element. *)
Lemma erase_loop_room (fuel : nat) :
  forall i v,
  0 <= i <= size v -> size v < Z.of_nat (length (array v)) ->
  Z.of_nat (length (array v)) <= MAX_SLOTS ->
  size v - i < Z.of_nat fuel ->
  exists a',
    while fuel (fun i v => i <? size v)
      (fun i => p ← load (wrap (i + 1)); store i p;; ret (wrap (i + 1)))
      i v = Done (size v, set_array a' v) /\
    length a' = length (array v) /\
    (forall j, (j < Z.to_nat i)%nat -> a' !! j = array v !! j) /\
    (forall j, (Z.to_nat i <= j < Z.to_nat (size v))%nat -> a' !! j = array v !! S j) /\
    (forall j, (Z.to_nat (size v) <= j)%nat -> a' !! j = array v !! j).
Proof.
  induction fuel as [|fuel IH]; intros i v Hi Hroom Hmax Hfuel; [lia|].
  cbn [while].
  destruct (Z.ltb_spec i (size v)) as [Hlt|Hge].
  - rewrite wrap_small by size_lia.
    rewrite (bind_done _ _ _ _ _ (load_in (i + 1) v ltac:(lia))).
    rewrite (bind_done _ _ _ _ _ (store_in i _ v ltac:(lia))).
    unfold ret at 1.
    set (v1 := set_array _ v).
    destruct (IH (i + 1) v1) as (a' & Hrun & Hlen & Hlow & Hmid & Hhigh);
      [subst v1; cbn; rewrite ?length_insert; lia..|].
    exists a'. subst v1. cbn in *. rewrite length_insert in Hlen.
    split; [done|]. split; [done|].
    split.
    { intros j Hj. rewrite Hlow by lia. apply list_lookup_insert_ne. lia. }
    split.
    { intros j Hj. destruct (decide (j = Z.to_nat i)) as [->|Hne].
      - rewrite Hlow by lia. rewrite list_lookup_insert_eq by lia.
        unfold slot_at. replace (Z.to_nat (i + 1)) with (S (Z.to_nat i)) by lia.
        destruct (lookup_lt_is_Some_2 (array v) (S (Z.to_nat i))) as [a Ha]; [lia|].
        by rewrite Ha.
      - rewrite Hmid by lia. apply list_lookup_insert_ne. lia. }
    intros j Hj. rewrite Hhigh by lia. apply list_lookup_insert_ne. lia.
  - exists (array v). rewrite set_array_same. replace i with (size v) by lia.
    split; [done|]. split; [done|]. split; [done|].
    split; [intros j Hj; lia|done].
Qed.

(** With a full block the last round reads the slot at index [size], which
    is one past the end of the block. *)
Lemma erase_loop_full (fuel : nat) :
  forall i v,
  0 <= i < size v -> size v = Z.of_nat (length (array v)) ->
  Z.of_nat (length (array v)) <= MAX_SLOTS ->
  size v - i < Z.of_nat fuel ->
  while fuel (fun i v => i <? size v)
    (fun i => p ← load (wrap (i + 1)); store i p;; ret (wrap (i + 1)))
    i v = OutOfBounds.
Proof.
  induction fuel as [|fuel IH]; intros i v Hi Hfull Hmax Hfuel; [lia|].
  cbn [while].
  destruct (Z.ltb_spec i (size v)) as [Hlt|Hge]; [|lia].
  rewrite wrap_small by size_lia.
  destruct (decide (i + 1 = size v)) as [Hlast|Hmore].
  - by rewrite (bind_out_of_bounds _ _ _ (load_out (i + 1) v ltac:(lia))).
  - rewrite (bind_done _ _ _ _ _ (load_in (i + 1) v ltac:(lia))).
    rewrite (bind_done _ _ _ _ _ (store_in i _ v ltac:(lia))).
    unfold ret at 1.
    apply IH; cbn; rewrite ?length_insert; lia.
Qed.

Lemma vector_erase_noop v position :
  size v <= position -> vector_erase position v = Done (tt, v).
Proof.
  intros H. unfold vector_erase. rewrite bind_reads.
  by destruct (Z.leb_spec (size v) position); [|lia].
Qed.

Lemma vector_erase_room v position :
  wf v -> 0 <= position < size v -> size v < capacity v ->
  exists a',
    vector_erase position v = Done (tt, erased position a' v) /\
    length a' = length (array v) /\
    take (Z.to_nat (size v - 1)) a'
    = take (Z.to_nat position) (contents v) ++ drop (S (Z.to_nat position)) (contents v).
Proof.
  intros [Hblock Hsize _ Hmax] Hpos Hroom. unfold vector_erase.
  rewrite bind_reads.
  destruct (Z.leb_spec (size v) position); [lia|].
  rewrite (bind_done _ _ _ _ _ (load_in position v ltac:(lia))).
  rewrite bind_call_destructor.
  set (v0 := record_call _ v).
  destruct (erase_loop_room (S (Z.to_nat (size v - position))) position v0)
    as (a' & Hrun & Hlen & Hlow & Hmid & Hhigh); [subst v0; cbn; lia..|].
  change (size v0) with (size v) in *. change (array v0) with (array v) in *.
  rewrite (bind_done _ _ _ _ _ Hrun).
  rewrite bind_reads. unfold modify. subst v0. cbn [size set_array record_call].
  rewrite wrap_small by size_lia.
  exists a'. split; [done|]. split; [done|].
  apply list_eq. intros j. unfold contents.
  destruct (decide (j < Z.to_nat position)%nat).
  - rewrite lookup_take_lt by lia. rewrite lookup_app_l by (rewrite !length_take; lia).
    rewrite !lookup_take_lt by lia. apply Hlow. lia.
  - rewrite lookup_app_r by (rewrite !length_take; lia).
    rewrite !length_take. rewrite lookup_drop.
    replace (S (Z.to_nat position) + (j - _))%nat with (S j) by lia.
    destruct (decide (j < Z.to_nat (size v - 1))%nat).
    + rewrite !lookup_take_lt by lia. apply Hmid. lia.
    + by rewrite !lookup_take_ge by lia.
Qed.

Lemma vector_erase_full v position :
  wf v -> 0 <= position < size v -> size v = capacity v ->
  vector_erase position v = OutOfBounds.
Proof.
  intros [Hblock Hsize _ Hmax] Hpos Hfull. unfold vector_erase.
  rewrite bind_reads.
  destruct (Z.leb_spec (size v) position); [lia|].
  rewrite (bind_done _ _ _ _ _ (load_in position v ltac:(lia))).
  rewrite bind_call_destructor.
  apply bind_out_of_bounds.
  apply erase_loop_full; cbn; lia.
Qed.

(** ** vector_insert *)

(** The guard shared by [vector_push_back] and [vector_insert]. *)
Lemma reserve_if_full v :
  wf v -> size v < MAX_SLOTS ->
  exists v1,
    (if size v =? capacity v then vector_reserve (wrap (capacity v + 1)) else ret tt) v
    = Done (tt, v1) /\
    wf v1 /\ size v1 = size v /\ size v < capacity v1 /\
    contents v1 = contents v /\ calls v1 = calls v /\ same_callbacks v v1 /\
    capacity v1 = (if size v =? capacity v then 2 * capacity v else capacity v).
Proof.
  intros Hwf Hmax. pose proof Hwf as [Hblock Hsize Hpow Hcapmax].
  pose proof (wf_capacity_pos v Hwf) as Hpos.
  destruct (Z.eqb_spec (size v) (capacity v)) as [Hfull|Hroom].
  - destruct Hpow as (k & Hk & Hpow).
    assert (k < 60) as Hk60.
    { apply pow2_lt_inv; [lia|lia|]. unfold MAX_SLOTS in *. lia. }
    assert (2 * capacity v = 2 ^ (k + 1)) as Hnext.
    { rewrite Hpow, Z.pow_add_r by lia. lia. }
    assert (2 * capacity v <= MAX_SLOTS) as Hdouble.
    { rewrite Hnext. apply pow2_le. lia. }
    exists (grown (2 * capacity v) v).
    rewrite wrap_small by size_lia.
    split.
    { apply vector_reserve_grow; [done|lia| |lia].
      rewrite Hnext, Hpow. apply get_new_capacity_next. lia. }
    split.
    { apply wf_grown; [done|lia|]. exists (k + 1). split; [lia|done]. }
    split; [done|]. split; [cbn; lia|].
    split; [by apply contents_grown|]. by repeat split.
  - exists v. split; [done|]. split; [done|]. split; [done|]. split; [lia|].
    by repeat split.
Qed.

(** With [position = 0] the condition [i >= position] never fails: the
    round with [i = 0] reads the slot at index [SIZE_MAX]. *)
Lemma insert_loop_zero (fuel : nat) :
  forall i v,
  0 <= i < Z.of_nat (length (array v)) ->
  Z.of_nat (length (array v)) <= MAX_SLOTS ->
  i < Z.of_nat fuel ->
  while fuel (fun i _ => 0 <=? i)
    (fun i => p ← load (wrap (i - 1)); store i p;; ret (wrap (i - 1)))
    i v = OutOfBounds.
Proof.
  induction fuel as [|fuel IH]; intros i v Hi Hmax Hfuel; [lia|].
  cbn [while].
  destruct (Z.leb_spec 0 i) as [_|]; [|lia].
  destruct (decide (i = 0)) as [->|Hne].
  - rewrite (bind_out_of_bounds (load (wrap (0 - 1)))); [done|].
    apply load_out. change (wrap (0 - 1)) with (SIZE_MODULUS - 1). size_lia.
  - rewrite wrap_small by size_lia.
    rewrite (bind_done _ _ _ _ _ (load_in (i - 1) v ltac:(lia))).
    rewrite (bind_done _ _ _ _ _ (store_in i _ v ltac:(lia))).
    unfold ret at 1.
    apply IH; cbn; rewrite ?length_insert; lia.
Qed.

(** With [position >= 1] the loop moves the slots in [[position - 1, i)] one
    index up and stops with [i = position - 1]. *)
Lemma insert_loop_shift (fuel : nat) (position : Z) :
  1 <= position ->
  forall i v,
  position - 1 <= i < Z.of_nat (length (array v)) ->
  Z.of_nat (length (array v)) <= MAX_SLOTS ->
  i - position + 1 < Z.of_nat fuel ->
  exists a',
    while fuel (fun i _ => position <=? i)
      (fun i => p ← load (wrap (i - 1)); store i p;; ret (wrap (i - 1)))
      i v = Done (position - 1, set_array a' v) /\
    length a' = length (array v) /\
    (forall j, (j < Z.to_nat position)%nat -> a' !! j = array v !! j) /\
    (forall j, (Z.to_nat position <= j <= Z.to_nat i)%nat ->
               a' !! j = array v !! (j - 1)%nat) /\
    (forall j, (Z.to_nat i < j)%nat -> a' !! j = array v !! j).
Proof.
  intros Hpos. induction fuel as [|fuel IH]; intros i v Hi Hmax Hfuel; [lia|].
  cbn [while].
  destruct (Z.leb_spec position i) as [Hge|Hlt].
  - rewrite wrap_small by size_lia.
    rewrite (bind_done _ _ _ _ _ (load_in (i - 1) v ltac:(lia))).
    rewrite (bind_done _ _ _ _ _ (store_in i _ v ltac:(lia))).
    unfold ret at 1.
    set (v1 := set_array _ v).
    destruct (IH (i - 1) v1) as (a' & Hrun & Hlen & Hlow & Hmid & Hhigh);
      [subst v1; cbn; rewrite ?length_insert; lia..|].
    exists a'. subst v1. cbn in *. rewrite length_insert in Hlen.
    split; [done|]. split; [done|].
    split.
    { intros j Hj. rewrite Hlow by lia. apply list_lookup_insert_ne. lia. }
    split.
    { intros j Hj. destruct (decide (j = Z.to_nat i)) as [->|Hne].
      - rewrite Hhigh by lia. rewrite list_lookup_insert_eq by lia.
        unfold slot_at. replace (Z.to_nat (i - 1)) with (Z.to_nat i - 1)%nat by lia.
        destruct (lookup_lt_is_Some_2 (array v) (Z.to_nat i - 1)%nat) as [a Ha]; [lia|].
        by rewrite Ha.
      - rewrite Hmid by lia. apply list_lookup_insert_ne. lia. }
    intros j Hj. rewrite Hhigh by lia. apply list_lookup_insert_ne. lia.
  - exists (array v). rewrite set_array_same. replace i with (position - 1) by lia.
    split; [done|]. split; [done|]. split; [done|].
    split; [intros j Hj; lia|done].
Qed.

Lemma vector_insert_front v x :
  wf v -> size v < MAX_SLOTS -> vector_insert 0 x v = OutOfBounds.
Proof.
  intros Hwf Hmax. unfold vector_insert. rewrite !bind_reads.
  destruct (reserve_if_full v Hwf Hmax) as
    (v1 & Hrun & [Hblock1 Hsize1 _ Hmax1] & Hsz & Hroom & _).
  rewrite (bind_done _ _ _ _ _ Hrun). rewrite bind_reads.
  apply bind_out_of_bounds.
  apply insert_loop_zero; lia.
Qed.

Lemma vector_insert_inner v position x :
  wf v -> size v < MAX_SLOTS -> 1 <= position <= size v ->
  exists v1 a',
    vector_insert position x v = Done (tt, inserted position x a' v1) /\
    wf v1 /\ size v1 = size v /\ size v < capacity v1 /\
    calls v1 = calls v /\ same_callbacks v v1 /\
    capacity v1 = (if size v =? capacity v then 2 * capacity v else capacity v) /\
    length a' = length (array v1) /\
    contents (inserted position x a' v1)
    = take (Z.to_nat position) (contents v) ++ copy_result v x ::
      drop (Z.to_nat position) (contents v).
Proof.
  intros Hwf Hmax Hpos. unfold vector_insert. rewrite !bind_reads.
  destruct (reserve_if_full v Hwf Hmax) as
    (v1 & Hrun & Hwf1 & Hsz & Hroom & Hcont & Hcalls & Hcb & Hcap).
  pose proof Hwf1 as [Hblock1 Hsize1 _ Hmax1].
  rewrite (bind_done _ _ _ _ _ Hrun). rewrite bind_reads.
  destruct (insert_loop_shift (S (S (Z.to_nat (size v1)))) position ltac:(lia)
              (size v1) v1) as (a' & Hloop & Hlen & Hlow & Hmid & Hhigh); [lia..|].
  rewrite (bind_done _ _ _ _ _ Hloop).
  rewrite (bind_done _ _ _ _ _ (copy_or_null_run x _)).
  erewrite bind_done by (apply store_in; cbn; lia).
  rewrite bind_reads. unfold modify. cbn [size set_array record_calls].
  rewrite wrap_small by size_lia.
  exists v1, a'.
  split; [done|]. split; [done|]. split; [done|]. split; [done|].
  split; [done|]. split; [done|]. split; [done|]. split; [done|].
  unfold contents at 1. cbn [inserted size array set_size set_array record_calls].
  rewrite (copy_result_same_callbacks v v1) by done. rewrite Hsz.
  apply list_eq. intros j. rewrite <- Hcont. unfold contents. rewrite Hsz.
  destruct (decide (j < Z.to_nat position)%nat).
  - rewrite lookup_app_l by (rewrite !length_take; lia).
    rewrite !lookup_take_lt by lia.
    rewrite list_lookup_insert_ne by lia. apply Hlow. lia.
  - rewrite lookup_app_r by (rewrite !length_take; lia).
    rewrite !length_take.
    replace (Z.to_nat position `min` (Z.to_nat (size v) `min` length (array v1)))%nat
      with (Z.to_nat position) by lia.
    destruct (decide (j = Z.to_nat position)) as [->|Hne].
    + rewrite Nat.sub_diag. rewrite lookup_take_lt by lia.
      apply list_lookup_insert_eq. lia.
    + replace (j - Z.to_nat position)%nat with (S (j - Z.to_nat position - 1)) by lia.
      rewrite lookup_cons. cbv beta iota. rewrite lookup_drop.
      replace (Z.to_nat position + (j - Z.to_nat position - 1))%nat
        with (j - 1)%nat by lia.
      destruct (decide (j < Z.to_nat (size v + 1))%nat).
      * rewrite !lookup_take_lt by lia.
        rewrite list_lookup_insert_ne by lia. apply Hmid. lia.
      * by rewrite !lookup_take_ge by lia.
Qed.

(** ** vector_set *)

Lemma vector_set_beyond v position x :
  size v < position -> vector_set position x v = Done (tt, v).
Proof.
  intros H. unfold vector_set. rewrite bind_reads.
  by destruct (Z.ltb_spec (size v) position); [|lia].
Qed.

Lemma vector_set_overwrite v position x :
  wf v -> 0 <= position < size v ->
  vector_set position x v = Done (tt, overwritten position x v).
Proof.
  intros [Hblock Hsize _ _] Hpos. unfold vector_set. rewrite bind_reads.
  destruct (Z.ltb_spec (size v) position); [lia|].
  destruct (Z.ltb_spec position (size v)); [|lia].
  rewrite (bind_done _ _ _ _ _ (load_in position v ltac:(lia))).
  rewrite bind_call_destructor.
  rewrite (bind_done _ _ _ _ _ (copy_or_null_run x _)).
  by rewrite store_in by (cbn; lia).
Qed.

Lemma vector_set_append v x :
  wf v -> size v < capacity v ->
  vector_set (size v) x v = Done (tt, appended x v).
Proof.
  intros [Hblock Hsize _ Hmax] Hroom. unfold vector_set. rewrite bind_reads.
  rewrite Z.ltb_irrefl. rewrite bind_reads.
  destruct (Z.eqb_spec (size v) (capacity v)); [lia|].
  rewrite bind_ret.
  rewrite (bind_done _ _ _ _ _ (copy_or_null_run x _)).
  erewrite bind_done by (apply store_in; cbn; lia).
  rewrite bind_reads. unfold modify. cbn [size set_array record_calls].
  by rewrite wrap_small by size_lia.
Qed.

(** With a full block the call [vector_resize(this, position)] changes
    nothing, and the store that follows goes one slot past the block. *)
Lemma vector_set_full v x :
  wf v -> size v = capacity v -> vector_set (size v) x v = OutOfBounds.
Proof.
  intros Hwf Hfull. pose proof Hwf as [Hblock Hsize _ Hmax].
  unfold vector_set. rewrite bind_reads.
  rewrite Z.ltb_irrefl. rewrite bind_reads.
  destruct (Z.eqb_spec (size v) (capacity v)); [|lia].
  destruct (vector_resize_spec v (size v) Hwf) as (v' & Hrun & _ & _ & _ & _ & _ & _ & _ & Hsame);
    [lia|].
  rewrite (Hsame eq_refl) in Hrun.
  rewrite (bind_done _ _ _ _ _ Hrun).
  rewrite (bind_done _ _ _ _ _ (copy_or_null_run x _)).
  apply bind_out_of_bounds, store_out. cbn. lia.
Qed.

(** ** vector_clear *)

Lemma clear_loop (fuel : nat) :
  forall i v,
  0 <= i <= size v -> size v <= Z.of_nat (length (array v)) ->
  Z.of_nat (length (array v)) <= MAX_SLOTS ->
  size v - i < Z.of_nat fuel ->
  exists v',
    while fuel (fun i v => i <? size v)
      (fun i => p ← load i;
                match p with
                | Some _ => call_destructor p;; store i None
                | None => ret tt
                end;;
                ret (wrap (i + 1))) i v = Done (size v, v') /\
    size v' = size v /\ capacity v' = capacity v /\
    length (array v') = length (array v) /\
    (forall j, (j < Z.to_nat i)%nat -> array v' !! j = array v !! j) /\
    (forall j, (Z.to_nat i <= j < Z.to_nat (size v))%nat -> array v' !! j = Some None) /\
    calls v' = calls v ++
      (DestroyCall <$> filter (fun p => is_Some p)
         (take (Z.to_nat (size v - i)) (drop (Z.to_nat i) (array v)))) /\
    same_callbacks v v'.
Proof.
  induction fuel as [|fuel IH]; intros i v Hi Hsize Hmax Hfuel; [lia|].
  cbn [while].
  destruct (Z.ltb_spec i (size v)) as [Hlt|Hge].
  - rewrite (bind_done _ _ _ _ _ (load_in i v ltac:(lia))).
    destruct (lookup_lt_is_Some_2 (array v) (Z.to_nat i)) as [a Ha]; [lia|].
    rewrite (drop_lookup_cons _ _ _ Ha).
    replace (Z.to_nat (size v - i)) with (S (Z.to_nat (size v - (i + 1)))) by lia.
    replace (slot_at v i) with a by (unfold slot_at; by rewrite Ha).
    cbn [take]. rewrite filter_cons.
    destruct a as [e|].
    + rewrite bind_run, bind_call_destructor.
      rewrite store_in by (cbn; lia). cbn match.
      unfold ret at 1. rewrite wrap_small by size_lia.
      set (v1 := set_array _ _).
      destruct (IH (i + 1) v1) as
        (v' & Hrun & Hsz & Hcap & Hlen & Hlow & Hnull & Hcalls & Hcb);
        [subst v1; cbn; rewrite ?length_insert; lia..|].
      exists v'. subst v1. cbn in *. rewrite length_insert in Hlen.
      rewrite drop_insert_lt in Hcalls by lia.
      replace (Z.to_nat (i + 1)) with (S (Z.to_nat i)) in Hcalls by lia.
      split; [done|]. split; [done|]. split; [done|]. split; [done|].
      split.
      { intros j Hj. rewrite Hlow by lia. apply list_lookup_insert_ne. lia. }
      split.
      { intros j Hj. destruct (decide (j = Z.to_nat i)) as [->|Hne].
        - rewrite Hlow by lia. apply list_lookup_insert_eq. lia.
        - apply Hnull. lia. }
      split; [|done].
      rewrite decide_True by done. cbn. rewrite Hcalls, <- app_assoc. done.
    + rewrite bind_run. cbn match. unfold ret at 1 2.
      rewrite wrap_small by size_lia.
      destruct (IH (i + 1) v) as
        (v' & Hrun & Hsz & Hcap & Hlen & Hlow & Hnull & Hcalls & Hcb); [lia..|].
      exists v'.
      replace (Z.to_nat (i + 1)) with (S (Z.to_nat i)) in Hcalls by lia.
      split; [done|]. split; [done|]. split; [done|]. split; [done|].
      split; [intros j Hj; apply Hlow; lia|].
      split.
      { intros j Hj. destruct (decide (j = Z.to_nat i)) as [->|Hne].
        - rewrite Hlow by lia. done.
        - apply Hnull. lia. }
      split; [|done].
      rewrite decide_False by (intros [? ?]; done). done.
  - exists v. replace i with (size v) by lia.
    rewrite Z.sub_diag. cbn. rewrite app_nil_r.
    split; [done|]. split; [done|]. split; [done|]. split; [done|].
    split; [done|]. split; [intros j Hj; lia|]. by repeat split.
Qed.

Lemma vector_clear_spec v :
  wf v ->
  exists v',
    vector_clear v = Done (tt, v') /\
    wf v' /\ size v' = 0 /\ capacity v' = capacity v /\
    (forall j, 0 <= j < size v -> array v' !! Z.to_nat j = Some None) /\
    calls v' = calls v ++ (DestroyCall <$> filter (fun p => is_Some p) (contents v)) /\
    same_callbacks v v'.
Proof.
  intros Hwf. pose proof Hwf as [Hblock Hsize Hpow Hmax].
  unfold vector_clear. rewrite bind_reads.
  destruct (clear_loop (S (Z.to_nat (size v))) 0 v) as
    (v' & Hrun & Hsz & Hcap & Hlen & _ & Hnull & Hcalls & Hcb); [lia..|].
  rewrite (bind_done _ _ _ _ _ Hrun).
  exists (set_size 0 v'). split; [done|].
  split.
  { pose proof (wf_capacity_pos v Hwf).
    split; cbn; [lia|lia|by rewrite Hcap|lia]. }
  split; [done|]. split; [done|].
  split; [intros j Hj; cbn; apply Hnull; lia|].
  split; [|done]. cbn. rewrite Hcalls. by rewrite Z.sub_0_r.
Qed.

(** ** Every operation that returns keeps the invariant *)

Lemma bind_inv {A B} (m : M A) (k : A -> M B) v b v' :
  (m ≫= k) v = Done (b, v') ->
  exists a v1, m v = Done (a, v1) /\ k a v1 = Done (b, v').
Proof.
  rewrite bind_run. destruct (m v) as [[a v1]| | |]; [|done..].
  intros H. by exists a, v1.
Qed.

Lemma wf_popped v : wf v -> 0 < size v -> wf (popped v).
Proof.
  intros [Hblock Hsize Hpow Hmax] Hpos. split; cbn; [|lia|done|done].
  by rewrite length_insert.
Qed.

Lemma wf_erased v position a' :
  wf v -> 0 < size v -> length a' = length (array v) -> wf (erased position a' v).
Proof.
  intros [Hblock Hsize Hpow Hmax] Hpos Hlen. split; cbn; [lia|lia|done|done].
Qed.

Lemma wf_inserted v position x a' :
  wf v -> size v < capacity v -> length a' = length (array v) ->
  wf (inserted position x a' v).
Proof.
  intros [Hblock Hsize Hpow Hmax] Hroom Hlen. split; cbn; [|lia|done|done].
  rewrite length_insert. lia.
Qed.

Lemma wf_overwritten v position x : wf v -> wf (overwritten position x v).
Proof.
  intros [Hblock Hsize Hpow Hmax]. split; cbn; [|lia|done|done].
  by rewrite length_insert.
Qed.

Lemma vector_reserve_too_large v n :
  wf v -> MAX_SLOTS < n ->
  vector_reserve n v = OutOfBounds \/ (vector_reserve n v = Diverges /\ 2 ^ 63 < n).
Proof.
  intros [Hblock Hsize Hpow Hmax] Hbig.
  destruct (Z.le_gt_cases n (2 ^ 63)).
  - left. apply vector_reserve_wraps; lia.
  - right. split; [apply vector_reserve_overflow; lia|done].
Qed.

Lemma vector_reserve_outcome v n :
  wf v ->
  returns_wf (vector_reserve n v) \/ vector_reserve n v = OutOfBounds \/
  (vector_reserve n v = Diverges /\ 2 ^ 63 < n).
Proof.
  intros Hwf. pose proof Hwf as [Hblock Hsize Hpow Hmax].
  destruct (Z.le_gt_cases n (capacity v)) as [Hfit|Hgrow].
  - left. exists v. split; [by apply vector_reserve_noop|done].
  - destruct (Z.le_gt_cases n MAX_SLOTS) as [Hok|Hbig].
    + destruct (get_new_capacity_within n Hok) as (cap & Hcap & Hpow' & Hle & _).
      left. exists (grown cap v).
      split; [apply vector_reserve_grow; (done || lia)|].
      apply wf_grown; [done|lia|done].
    + right. by apply vector_reserve_too_large.
Qed.

Lemma vector_push_back_outcome v x :
  wf v -> returns_wf (vector_push_back x v) \/ vector_push_back x v = OutOfBounds.
Proof.
  intros Hwf. pose proof Hwf as [Hblock Hsize Hpow Hmax].
  destruct (Z.le_gt_cases MAX_SLOTS (size v)) as [Hbig|Hsmall].
  - right. apply vector_push_back_overflow; (done || lia).
  - destruct (vector_push_back_spec v x Hwf Hsmall) as (v' & Hrun & Hwf' & _).
    left. by exists v'.
Qed.

Lemma vector_pop_back_outcome v :
  wf v -> returns_wf (vector_pop_back v) \/ vector_pop_back v = OutOfBounds.
Proof.
  intros Hwf. pose proof Hwf as [Hblock Hsize Hpow Hmax].
  destruct (decide (size v = 0)) as [Hempty|Hne].
  - right. apply vector_pop_back_empty; (done || size_lia).
  - left. exists (popped v).
    split; [apply vector_pop_back_nonempty; (done || lia)|].
    apply wf_popped; [done|lia].
Qed.

Lemma vector_insert_outcome v position x :
  wf v -> 0 <= position ->
  returns_wf (vector_insert position x v) \/ vector_insert position x v = OutOfBounds.
Proof.
  intros Hwf Hpos. pose proof Hwf as [Hblock Hsize Hpow Hmax].
  destruct (Z.le_gt_cases MAX_SLOTS (size v)) as [Hbig|Hsmall].
  { right. unfold vector_insert. rewrite !bind_reads.
    destruct (Z.eqb_spec (size v) (capacity v)); [|lia].
    apply bind_out_of_bounds.
    rewrite wrap_small by size_lia.
    apply vector_reserve_wraps; [lia|size_lia|lia]. }
  destruct (decide (position = 0)) as [->|Hne].
  { right. by apply vector_insert_front. }
  destruct (Z.le_gt_cases position (size v)) as [Hin|Hout].
  - destruct (vector_insert_inner v position x Hwf Hsmall) as
      (v1 & a' & Hrun' & Hwf1 & Hsz & Hroom & _ & _ & _ & Hlen & _); [lia|].
    left. exists (inserted position x a' v1). split; [done|].
    apply wf_inserted; [done|lia|done].
  - unfold vector_insert. rewrite !bind_reads.
    destruct (reserve_if_full v Hwf Hsmall) as
      (v1 & Hrun1 & Hwf1 & Hsz & Hroom & _).
    pose proof Hwf1 as [Hblock1 Hsize1 Hpow1 Hmax1].
    rewrite (bind_done _ _ _ _ _ Hrun1). rewrite bind_reads.
    cbn [while]. destruct (Z.leb_spec position (size v1)); [lia|].
    rewrite (bind_done _ _ _ (size v1) v1) by done.
    rewrite (bind_done _ _ _ _ _ (copy_or_null_run x _)).
    destruct (decide (position < capacity v1)) as [Hfit|Hnofit].
    + erewrite bind_done by (apply store_in; cbn; lia).
      rewrite bind_reads. unfold modify. cbn [size set_array record_calls].
      rewrite wrap_small by size_lia.
      left. eexists. split; [done|]. split; cbn; [|lia|done|done].
      rewrite length_insert. lia.
    + right. apply bind_out_of_bounds, store_out. cbn. lia.
Qed.

Lemma vector_resize_outcome v n :
  wf v -> 0 <= n ->
  returns_wf (vector_resize n v) \/ vector_resize n v = OutOfBounds \/
  (vector_resize n v = Diverges /\ 2 ^ 63 < n).
Proof.
  intros Hwf Hn. pose proof Hwf as [Hblock Hsize Hpow Hmax].
  destruct (Z.le_gt_cases n MAX_SLOTS) as [Hok|Hbig].
  - destruct (vector_resize_spec v n Hwf) as (v' & Hrun & Hwf' & _); [lia|].
    left. by exists v'.
  - right. unfold vector_resize. rewrite bind_reads.
    destruct (Z.ltb_spec (capacity v) n); [|lia].
    rewrite bind_run.
    destruct (vector_reserve_too_large v n Hwf Hbig) as [->|[-> ?]]; [by left|by right].
Qed.

Lemma vector_set_outcome v position x :
  wf v -> 0 <= position ->
  returns_wf (vector_set position x v) \/ vector_set position x v = OutOfBounds.
Proof.
  intros Hwf Hpos. pose proof Hwf as [Hblock Hsize Hpow Hmax].
  destruct (Z.lt_trichotomy position (size v)) as [Hlt|[->|Hgt]].
  - left. exists (overwritten position x v).
    split; [apply vector_set_overwrite; (done || lia)|by apply wf_overwritten].
  - destruct (decide (size v = capacity v)) as [Hfull|Hroom].
    + right. by apply vector_set_full.
    + left. exists (appended x v).
      split; [apply vector_set_append; (done || lia)|].
      apply wf_appended; [done|lia].
  - left. exists v. split; [apply vector_set_beyond; lia|done].
Qed.

Lemma vector_erase_outcome v position :
  wf v -> 0 <= position ->
  returns_wf (vector_erase position v) \/ vector_erase position v = OutOfBounds.
Proof.
  intros Hwf Hpos. pose proof Hwf as [Hblock Hsize Hpow Hmax].
  destruct (Z.le_gt_cases (size v) position) as [Hout|Hin].
  - left. exists v. split; [by apply vector_erase_noop|done].
  - destruct (decide (size v = capacity v)) as [Hfull|Hroom].
    + right. apply vector_erase_full; (done || lia).
    + destruct (vector_erase_room v position Hwf) as (a' & Hrun' & Hlen & _); [lia..|].
      left. exists (erased position a' v). split; [done|].
      apply wf_erased; [done|lia|done].
Qed.

(** Whatever the operation and its arguments, a call on a well-formed
    vector returns with a well-formed vector, or leaves the block, or is a
    reservation for more than [2 ^ 63] slots, which never returns.  No call
    stops at an assertion, and no loop other than the one of
    [get_new_capacity] runs out of rounds. *)
Lemma run_operation_outcome (o : @operation elem) v :
  wf v -> operation_in_range o ->
  returns_wf (run_operation o v) \/ run_operation o v = OutOfBounds \/
  (run_operation o v = Diverges /\
   exists n, (o = Reserve n \/ o = Resize n) /\ 2 ^ 63 < n).
Proof.
  intros Hwf Hrange. destruct o as [x| |p x|p|p x|n|n|]; cbn in *.
  - destruct (vector_push_back_outcome v x Hwf); tauto.
  - destruct (vector_pop_back_outcome v Hwf); tauto.
  - destruct (vector_insert_outcome v p x Hwf); [apply Hrange|tauto..].
  - destruct (vector_erase_outcome v p Hwf); [apply Hrange|tauto..].
  - destruct (vector_set_outcome v p x Hwf); [apply Hrange|tauto..].
  - destruct (vector_resize_outcome v n Hwf) as [?|[?|[? ?]]];
      [apply Hrange|tauto|tauto|].
    right. right. split; [done|]. exists n. split; [by right|done].
  - destruct (vector_reserve_outcome v n Hwf) as [?|[?|[? ?]]]; [tauto|tauto|].
    right. right. split; [done|]. exists n. split; [by left|done].
  - destruct (vector_clear_spec v Hwf) as (v' & Hrun & Hwf' & _).
    left. by exists v'.
Qed.

Lemma run_operation_wf (o : @operation elem) v v' :
  wf v -> operation_in_range o -> run_operation o v = Done (tt, v') -> wf v'.
Proof.
  intros Hwf Hrange Hrun.
  destruct (run_operation_outcome o v Hwf Hrange) as
    [(v'' & Hrun' & Hwf')|[Hout|[Hdiv _]]]; [|congruence..].
  rewrite Hrun' in Hrun. by injection Hrun as <-.
Qed.

Lemma run_operations_wf (os : list (@operation elem)) :
  forall v v',
  wf v -> Forall operation_in_range os ->
  run_operations os v = Done (tt, v') -> wf v'.
Proof.
  induction os as [|o os IH]; intros v v' Hwf Hrange Hrun.
  - cbn in Hrun. by injection Hrun as <-.
  - apply Forall_cons in Hrange as [Ho Hos].
    cbn [run_operations] in Hrun.
    apply bind_inv in Hrun as ([] & v1 & Hrun1 & Hrun2).
    eapply IH; [|done|done]. by eapply run_operation_wf.
Qed.

Lemma reachable_wf v : reachable v -> wf v.
Proof.
  intros (cc & dt & dc & os & Hrange & Hrun).
  eapply run_operations_wf; [apply wf_create|done|done].
Qed.

End VectorFacts.

(** ** The claims *)

Lemma eight_pushes_run : run_operations eight_pushes example_vector = Done (tt, full_vector).
Proof. reflexivity. Qed.

Lemma three_pushes_run :
  run_operations (PushBack <$> [Some 1; None; Some 3]) example_vector
  = Done (tt, three_vector).
Proof. reflexivity. Qed.

Lemma wf_full_vector : wf full_vector.
Proof. split; cbn; [reflexivity|lia|by exists 3|size_lia]. Qed.

Lemma wf_three_vector : wf three_vector.
Proof. split; cbn; [reflexivity|lia|by exists 3|size_lia]. Qed.

Lemma reachable_full_vector : reachable full_vector.
Proof.
  exists example_copy, example_destructor, example_default, eight_pushes.
  split; [by repeat constructor|apply eight_pushes_run].
Qed.

(** C1, at the failing input: create, eight pushes of any elements, then
    [set] at index 8.  The vector is full (size = capacity = 8);
    [vector_set] does not grow it and stores into slot 8, outside of the
    block of 8 slots, so the run does not end in a state with
    [size <= capacity]. *)
Theorem set_after_eight_pushes_leaves_block {elem : Type} (cc : elem -> slot elem)
    (dt : slot elem -> unit) (dc : unit -> slot elem) (xs : list (slot elem))
    (y : slot elem) :
  length xs = 8%nat ->
  run_operations ((PushBack <$> xs) ++ [SetAt 8 y]) (vector_create cc dt dc)
  = OutOfBounds.
Proof.
  intros Hlen. rewrite run_operations_app.
  destruct (push_backs_spec xs (vector_create cc dt dc) (wf_create cc dt dc)) as
    (v & Hrun & Hwf & Hsize & _ & _ & _ & Hcap); [cbn; rewrite Hlen; size_lia|].
  cbn [size capacity vector_create] in Hsize, Hcap. rewrite Hlen in Hsize, Hcap.
  rewrite (bind_done _ _ _ _ _ Hrun).
  cbn [run_operations run_operation]. apply bind_out_of_bounds.
  replace 8 with (size v) by lia.
  apply vector_set_full; [done|].
  rewrite Hcap by (unfold INITIAL_CAPACITY; lia). unfold INITIAL_CAPACITY. lia.
Qed.

Lemma set_after_eight_pushes_leaves_block_witness :
  length [Some 1; Some 2; Some 3; Some 4; Some 5; Some 6; Some 7; Some 8] = 8%nat /\
  run_operations (eight_pushes ++ [SetAt 8 (Some 9)]) example_vector = OutOfBounds.
Proof.
  split; [reflexivity|].
  apply (set_after_eight_pushes_leaves_block example_copy example_destructor
           example_default [Some 1; Some 2; Some 3; Some 4; Some 5; Some 6; Some 7; Some 8]
           (Some 9)).
  reflexivity.
Defined.



(** Where the bound [MAX_SLOTS] on the number of pushes comes from: a push
    that finds a full block of [2 ^ 60] slots asks for [2 ^ 61] slots, whose
    byte size is 0 in 64 bits.  Such a run needs a live block of [2 ^ 63]
    bytes, which no allocation provides. *)
Lemma push_backs_past_max_slots :
  run_operations (PushBack <$> replicate (Z.to_nat (2 ^ 60 + 1)) None) example_vector
  = OutOfBounds.
Proof.
  replace (Z.to_nat (2 ^ 60 + 1)) with (S (Z.to_nat MAX_SLOTS)) by (unfold MAX_SLOTS; lia).
  rewrite replicate_S_end, fmap_app, run_operations_app.
  destruct (push_backs_spec (replicate (Z.to_nat MAX_SLOTS) None) example_vector
              (wf_create _ _ _)) as (v & Hrun & Hwf & Hsize & _).
  { rewrite length_replicate. change (size example_vector) with 0. unfold MAX_SLOTS. lia. }
  rewrite length_replicate in Hsize. change (size example_vector) with 0 in Hsize.
  rewrite (bind_done _ _ _ _ _ Hrun).
  pose proof Hwf as [_ Hsz _ Hmax].
  apply bind_out_of_bounds.
  apply vector_push_back_overflow; [done|unfold MAX_SLOTS in *; lia..].
Qed.

(** C3 as amended: neither function checks [size].  [vector_back] returns
    the address of slot [size - 1] in every state and leaves the vector as it
    is; [vector_pop_back] never ends in a failed assertion, and on a vector
    with [size > 0] it destroys the last element, clears its slot and
    decrements [size]. *)
Theorem pop_back_and_back_do_not_check {elem : Type} (v : @vector elem) :
  wf v ->
  vector_back v = Done (size v - 1, v) /\
  vector_pop_back v <> AssertFail /\
  (0 < size v -> vector_pop_back v = Done (tt, popped v)).
Proof.
  intros Hwf. pose proof Hwf as [Hblock Hsize _ Hmax].
  split; [reflexivity|]. split.
  - destruct (decide (size v = 0)) as [Hempty|Hne].
    + by rewrite vector_pop_back_empty by (done || size_lia).
    + by rewrite vector_pop_back_nonempty by (done || lia).
  - intros Hpos. by apply vector_pop_back_nonempty.
Qed.

Lemma pop_back_and_back_do_not_check_witness :
  wf three_vector /\
  vector_back three_vector = Done (2, three_vector) /\
  vector_pop_back three_vector <> AssertFail /\
  (0 < size three_vector -> vector_pop_back three_vector = Done (tt, popped three_vector)).
Proof.
  split; [split; cbn; [reflexivity|lia|by exists 3|vm_compute; discriminate]|].
  apply (pop_back_and_back_do_not_check three_vector).
  split; cbn; [reflexivity|lia|by exists 3|vm_compute; discriminate].
Defined.

(** C3 as stated fails on the fresh (empty) vector: [vector_pop_back] does
    not stop at an assertion, it wraps [size] to [SIZE_MAX] and reads that
    slot, and [vector_back] returns the address of slot [-1]. *)
Lemma pop_back_and_back_on_empty_vector :
  vector_pop_back example_vector = OutOfBounds /\
  vector_back example_vector = Done (-1, example_vector).
Proof. split; reflexivity. Qed.

(** C4, at the failing inputs: [insert] at position 0, on any well-formed
    vector.  The shifting loop tests [i >= 0] on an unsigned [i] and reads
    slot [i - 1] when [i] is 0; the call leaves the block before the new
    element is stored. *)
Theorem insert_at_front_leaves_block {elem : Type} (v : @vector elem) (x : slot elem) :
  wf v -> vector_insert 0 x v = OutOfBounds.
Proof.
  intros Hwf. pose proof Hwf as [Hblock Hsize _ Hmax].
  unfold vector_insert. rewrite !bind_reads.
  destruct (Z.le_gt_cases MAX_SLOTS (size v)) as [Hbig|Hsmall].
  - destruct (Z.eqb_spec (size v) (capacity v)); [|lia].
    apply bind_out_of_bounds.
    rewrite wrap_small by size_lia.
    apply vector_reserve_wraps; [lia|size_lia|lia].
  - destruct (reserve_if_full v Hwf Hsmall) as
      (v1 & Hrun & [Hblock1 Hsize1 _ Hmax1] & Hsz & Hroom & _).
    rewrite (bind_done _ _ _ _ _ Hrun). rewrite bind_reads.
    apply bind_out_of_bounds.
    apply insert_loop_zero; lia.
Qed.

Lemma insert_at_front_leaves_block_witness :
  wf three_vector /\ vector_insert 0 (Some 99) three_vector = OutOfBounds.
Proof.
  split; [split; cbn; [reflexivity|lia|by exists 3|vm_compute; discriminate]|].
  apply (insert_at_front_leaves_block three_vector (Some 99)).
  split; cbn; [reflexivity|lia|by exists 3|vm_compute; discriminate].
Defined.

(** C5, at the failing inputs: [set] at index [size] on any well-formed
    full vector.  The call [vector_resize size] made for growing leaves the
    vector as it is, capacity included, and the store to slot [size] is
    outside of the block. *)
Theorem set_at_size_on_full_vector {elem : Type} (v : @vector elem) (x : slot elem) :
  wf v -> size v = capacity v ->
  vector_resize (size v) v = Done (tt, v) /\
  vector_set (size v) x v = OutOfBounds.
Proof.
  intros Hwf Hfull. pose proof Hwf as [Hblock Hsize _ Hmax].
  destruct (vector_resize_spec v (size v) Hwf) as
    (v' & Hrun & _ & _ & _ & _ & _ & _ & _ & Hsame); [lia|].
  rewrite (Hsame eq_refl) in Hrun. split; [done|].
  unfold vector_set. rewrite bind_reads.
  rewrite Z.ltb_irrefl. rewrite bind_reads.
  destruct (Z.eqb_spec (size v) (capacity v)); [|lia].
  rewrite (bind_done _ _ _ _ _ Hrun).
  rewrite (bind_done _ _ _ _ _ (copy_or_null_run x _)).
  apply bind_out_of_bounds, store_out. cbn. lia.
Qed.

Lemma set_at_size_on_full_vector_witness :
  wf full_vector /\ size full_vector = capacity full_vector /\
  vector_resize (size full_vector) full_vector = Done (tt, full_vector) /\
  vector_set (size full_vector) (Some 9) full_vector = OutOfBounds.
Proof.
  split; [split; cbn; [reflexivity|lia|by exists 3|vm_compute; discriminate]|].
  split; [reflexivity|].
  apply (set_at_size_on_full_vector full_vector (Some 9)).
  - split; cbn; [reflexivity|lia|by exists 3|vm_compute; discriminate].
  - reflexivity.
Defined.

(** C6 as amended: for a target [n] of at most [MAX_SLOTS], [vector_resize]
    returns with [size = n].  It reserves first when [n] exceeds the
    capacity.  When [n > size] every appended slot holds a live copy of a
    default-constructed element, and each round of the loop calls the default
    constructor, the copy constructor on its result and the destructor on
    that same temporary.  When [n < size] the slots in [[n, size)] are
    destroyed in order and cleared.  When [n = size] nothing changes. *)
Theorem resize_contract {elem : Type} (v : @vector elem) (n : Z) :
  wf v -> 0 <= n <= MAX_SLOTS ->
  exists v',
    vector_resize n v = Done (tt, v') /\
    size v' = n /\
    (capacity v < n ->
       power_of_two (capacity v') /\ n <= capacity v' /\
       forall c, power_of_two c -> n <= c -> capacity v' <= c) /\
    (n <= capacity v -> capacity v' = capacity v) /\
    (size v < n ->
       contents v' = contents v ++
         replicate (Z.to_nat (n - size v)) (copy_result v (default_constructor v tt)) /\
       calls v' = calls v ++
         concat (replicate (Z.to_nat (n - size v))
                   (default_round (default_constructor v tt)))) /\
    (n < size v ->
       contents v' = take (Z.to_nat n) (contents v) /\
       (forall j, n <= j < size v -> array v' !! Z.to_nat j = Some None) /\
       calls v' = calls v ++ (DestroyCall <$> drop (Z.to_nat n) (contents v))) /\
    (n = size v -> v' = v).
Proof.
  intros Hwf Hn.
  destruct (vector_resize_spec v n Hwf Hn) as
    (v' & Hrun & _ & Hsize & _ & Hcap1 & Hcap2 & Hgrow & Hshrink & Hsame).
  exists v'. split; [done|]. split; [done|]. split; [|tauto].
  intros Hlt. apply get_new_capacity_least; [size_lia|by apply Hcap1].
Qed.

Lemma resize_contract_witness :
  wf three_vector /\ 0 <= 5 <= MAX_SLOTS /\
  exists v',
    vector_resize 5 three_vector = Done (tt, v') /\
    size v' = 5 /\
    (capacity three_vector < 5 ->
       power_of_two (capacity v') /\ 5 <= capacity v' /\
       forall c, power_of_two c -> 5 <= c -> capacity v' <= c) /\
    (5 <= capacity three_vector -> capacity v' = capacity three_vector) /\
    (size three_vector < 5 ->
       contents v' = contents three_vector ++
         replicate (Z.to_nat (5 - size three_vector))
           (copy_result three_vector (default_constructor three_vector tt)) /\
       calls v' = calls three_vector ++
         concat (replicate (Z.to_nat (5 - size three_vector))
                   (default_round (default_constructor three_vector tt)))) /\
    (5 < size three_vector ->
       contents v' = take (Z.to_nat 5) (contents three_vector) /\
       (forall j, 5 <= j < size three_vector -> array v' !! Z.to_nat j = Some None) /\
       calls v' = calls three_vector ++
         (DestroyCall <$> drop (Z.to_nat 5) (contents three_vector))) /\
    (5 = size three_vector -> v' = three_vector).
Proof.
  split; [split; cbn; [reflexivity|lia|by exists 3|vm_compute; discriminate]|].
  split; [split; vm_compute; discriminate|].
  apply (resize_contract three_vector 5).
  - split; cbn; [reflexivity|lia|by exists 3|vm_compute; discriminate].
  - split; vm_compute; discriminate.
Defined.

(** C6 as stated fails: after [vector_resize 1] on the fresh vector slot 0
    is not empty, it holds the copy 1007 of the default element 7; the
    element that was destroyed is the temporary 7, not the appended one.  And
    [vector_resize] with a target above [2 ^ 63] never returns. *)
Lemma resize_grow_keeps_live_copies :
  (exists v,
     vector_resize 1 example_vector = Done (tt, v) /\
     vector_get 0 v = Done (Some 1007, v) /\
     calls v = [DefaultCall; CopyCall 7; DestroyCall (Some 7)]) /\
  vector_resize (2 ^ 63 + 1) example_vector = Diverges.
Proof.
  split; [|reflexivity].
  eexists. split; [reflexivity|]. split; reflexivity.
Qed.

(** C7 as amended: for [n] of at most [MAX_SLOTS], [vector_reserve] returns.
    When [n] is at most the capacity the vector is left as it is.  Otherwise
    the capacity becomes the least power of two that is at least [n].  In
    both cases the capacity is at least [n] and not smaller than before, and
    [size], the elements in [[0, size)], the callbacks and the record of
    callback invocations are as before. *)
Theorem reserve_contract {elem : Type} (v : @vector elem) (n : Z) :
  wf v -> n <= MAX_SLOTS ->
  exists v',
    vector_reserve n v = Done (tt, v') /\
    (n <= capacity v -> v' = v) /\
    (capacity v < n ->
       power_of_two (capacity v') /\
       forall c, power_of_two c -> n <= c -> capacity v' <= c) /\
    n <= capacity v' /\ capacity v <= capacity v' /\
    size v' = size v /\ contents v' = contents v /\
    calls v' = calls v /\ same_callbacks v v'.
Proof.
  intros Hwf Hn. pose proof Hwf as [Hblock Hsize Hpow Hmax].
  destruct (Z.le_gt_cases n (capacity v)) as [Hfit|Hgrow].
  - exists v. split; [by apply vector_reserve_noop|].
    split; [done|]. split; [lia|]. by repeat split.
  - destruct (get_new_capacity_within n Hn) as (cap & Hcap & Hpow' & Hle & Hleast).
    exists (grown cap v).
    split; [apply vector_reserve_grow; (done || lia)|].
    split; [lia|]. split; [done|]. cbn [capacity grown set_capacity].
    split; [lia|]. split; [lia|]. split; [done|].
    split; [by apply contents_grown|]. by repeat split.
Qed.

Lemma reserve_contract_witness :
  wf three_vector /\ 9 <= MAX_SLOTS /\
  exists v',
    vector_reserve 9 three_vector = Done (tt, v') /\
    (9 <= capacity three_vector -> v' = three_vector) /\
    (capacity three_vector < 9 ->
       power_of_two (capacity v') /\
       forall c, power_of_two c -> 9 <= c -> capacity v' <= c) /\
    9 <= capacity v' /\ capacity three_vector <= capacity v' /\
    size v' = size three_vector /\ contents v' = contents three_vector /\
    calls v' = calls three_vector /\ same_callbacks three_vector v'.
Proof.
  split; [split; cbn; [reflexivity|lia|by exists 3|vm_compute; discriminate]|].
  split; [vm_compute; discriminate|].
  apply (reserve_contract three_vector 9).
  - split; cbn; [reflexivity|lia|by exists 3|vm_compute; discriminate].
  - vm_compute; discriminate.
Defined.

(** C7 as stated fails for large targets: above [2 ^ 63] no power of two
    fits a [size_t] and [get_new_capacity] never returns; above [2 ^ 60] the
    byte size of the new block wraps to 0 and the clearing loop writes
    outside of the block. *)
Lemma reserve_beyond_max_slots :
  vector_reserve (2 ^ 63 + 1) example_vector = Diverges /\
  vector_reserve (2 ^ 60 + 1) example_vector = OutOfBounds.
Proof.
  split; [reflexivity|].
  apply vector_reserve_wraps; cbn; size_lia.
Qed.

(** C8, at the failing inputs: [erase] at a position below [size] on any
    well-formed full vector.  The last round of the shifting loop reads the
    slot at index [size], which is outside of the block, so the call does not
    complete the shift. *)
Theorem erase_on_full_vector_leaves_block {elem : Type} (v : @vector elem)
    (position : Z) :
  wf v -> 0 <= position < size v -> size v = capacity v ->
  vector_erase position v = OutOfBounds.
Proof.
  intros [Hblock Hsize _ Hmax] Hpos Hfull. unfold vector_erase.
  rewrite bind_reads.
  destruct (Z.leb_spec (size v) position); [lia|].
  rewrite (bind_done _ _ _ _ _ (load_in position v ltac:(lia))).
  rewrite bind_call_destructor.
  apply bind_out_of_bounds.
  apply erase_loop_full; cbn; lia.
Qed.

Lemma erase_on_full_vector_leaves_block_witness :
  wf full_vector /\ 0 <= 3 < size full_vector /\
  size full_vector = capacity full_vector /\
  vector_erase 3 full_vector = OutOfBounds.
Proof.
  split; [split; cbn; [reflexivity|lia|by exists 3|vm_compute; discriminate]|].
  split; [cbn; lia|]. split; [reflexivity|].
  apply (erase_on_full_vector_leaves_block full_vector 3).
  - split; cbn; [reflexivity|lia|by exists 3|vm_compute; discriminate].
  - cbn; lia.
  - reflexivity.
Defined.

(** C9: [vector_get] stops at its assertion when [position >= size]; when
    [position < size] it returns the slot stored at [position] and the
    vector, with its record of callback invocations, is as before: nothing is
    copied. *)
Theorem get_contract {elem : Type} (v : @vector elem) (position : Z) :
  wf v ->
  (size v <= position -> vector_get position v = AssertFail) /\
  (0 <= position < size v -> vector_get position v = Done (slot_at v position, v)).
Proof.
  intros [Hblock Hsize _ _]. split.
  - apply vector_get_out.
  - intros Hpos. apply vector_get_in; [done|lia|done].
Qed.

Lemma get_contract_witness :
  wf three_vector /\
  (size three_vector <= 2 -> vector_get 2 three_vector = AssertFail) /\
  (0 <= 2 < size three_vector ->
   vector_get 2 three_vector = Done (slot_at three_vector 2, three_vector)).
Proof.
  split; [split; cbn; [reflexivity|lia|by exists 3|vm_compute; discriminate]|].
  apply (get_contract three_vector 2).
  split; cbn; [reflexivity|lia|by exists 3|vm_compute; discriminate].
Defined.

(** C10, at the failing input: the vector filled by eight pushes is
    reachable and full; [erase] at position 0 runs its loop up to [i = 7],
    where it reads slot [i + 1 = 8 = capacity], outside of the block. *)
Theorem erase_reads_slot_at_capacity :
  reachable full_vector /\
  0 < size full_vector /\ size full_vector = capacity full_vector /\
  load (size full_vector) full_vector = OutOfBounds /\
  vector_erase 0 full_vector = OutOfBounds.
Proof.
  split; [apply reachable_full_vector|]. repeat split; reflexivity.
Qed.

(** ** More of vector.c: capacity, round trips and the unused slots *)

Section MoreFacts.

Context {elem : Type}.
Implicit Types (v : @vector elem) (x p : slot elem) (cs : list (@call elem)).

Lemma load_inv i v p v' :
  load i v = Done (p, v') ->
  v' = v /\ p = slot_at v i /\ 0 <= i < Z.of_nat (length (array v)).
Proof.
  unfold load.
  destruct (Z.leb_spec 0 i); [|done].
  destruct (Z.ltb_spec i (Z.of_nat (length (array v)))); [|done].
  cbn. intros [= <- <-]. repeat split; (done || lia).
Qed.

Lemma store_inv i x v u v' :
  store i x v = Done (u, v') ->
  v' = set_array (<[Z.to_nat i := x]> (array v)) v /\
  0 <= i < Z.of_nat (length (array v)).
Proof.
  unfold store.
  destruct (Z.leb_spec 0 i); [|done].
  destruct (Z.ltb_spec i (Z.of_nat (length (array v)))); [|done].
  cbn. intros [= <-]. split; (done || lia).
Qed.

(** A property that every round keeps holds when the loop exits. *)
Lemma while_invariant {L} (I : L -> @vector elem -> Prop) (cond : L -> vector -> bool)
    (body : L -> M L) :
  (forall l v l' v', I l v -> cond l v = true -> body l v = Done (l', v') -> I l' v') ->
  forall fuel l v l' v',
  I l v -> while fuel cond body l v = Done (l', v') -> I l' v' /\ cond l' v' = false.
Proof.
  intros Hstep. induction fuel as [|fuel IH]; intros l v l' v' HI Hrun; [done|].
  cbn [while] in Hrun.
  destruct (cond l v) eqn:Hcond.
  - destruct (body l v) as [[l1 v1]| | |] eqn:Hbody; [|done..].
    eapply IH; [|done]. by eapply Hstep.
  - injection Hrun as <- <-. done.
Qed.

(** *** Capacity after a sequence of pushes *)

Lemma push_backs_capacity (xs : list (slot elem)) :
  forall v v',
  wf v -> size v + Z.of_nat (length xs) <= MAX_SLOTS ->
  run_operations (PushBack <$> xs) v = Done (tt, v') ->
  capacity v <= capacity v' /\
  (capacity v' = capacity v \/ capacity v' < 2 * size v').
Proof.
  induction xs as [|x xs IH]; intros v v' Hwf Hmax Hrun.
  - cbn in Hrun. injection Hrun as <-. split; [lia|by left].
  - cbn [length] in Hmax.
    destruct (vector_push_back_spec v x Hwf) as
      (v1 & Hrun1 & Hwf1 & Hsize1 & _ & _ & Hcap1 & _); [lia|].
    cbn [fmap list_fmap run_operations run_operation] in Hrun.
    rewrite (bind_done _ _ _ _ _ Hrun1) in Hrun.
    pose proof (wf_capacity_pos v Hwf) as Hpos.
    destruct (IH v1 v' Hwf1) as [Hmono [Hsame|Hless]]; [lia|done| |].
    + destruct (Z.eqb_spec (size v) (capacity v)) as [Hfull|Hroom].
      * split; [lia|]. right.
        destruct (push_backs_spec xs v1 Hwf1) as (v2 & Hrun2 & _ & Hsize2 & _); [lia|].
        assert (v2 = v') as -> by congruence. lia.
      * split; [lia|]. left. congruence.
    + destruct (Z.eqb_spec (size v) (capacity v)); (split; [lia|by right]).
Qed.

(** *** Sequences of pops *)

Lemma length_contents v : wf v -> length (contents v) = Z.to_nat (size v).
Proof.
  intros [Hblock Hsize _ _]. unfold contents. rewrite length_take. lia.
Qed.

Lemma contents_last v :
  wf v -> 0 < size v ->
  contents v = take (Z.to_nat (size v - 1)) (contents v) ++ [slot_at v (size v - 1)].
Proof.
  intros [Hblock Hsize _ _] Hpos. unfold contents, slot_at.
  rewrite take_take, Nat.min_l by lia.
  destruct (lookup_lt_is_Some_2 (array v) (Z.to_nat (size v - 1))) as [a Ha]; [lia|].
  rewrite Ha. cbn.
  replace (Z.to_nat (size v)) with (S (Z.to_nat (size v - 1))) by lia.
  by apply take_S_r.
Qed.

Lemma contents_popped v :
  wf v -> 0 < size v ->
  contents (popped v) = take (Z.to_nat (size v - 1)) (contents v).
Proof.
  intros [Hblock Hsize _ _] Hpos. unfold contents. cbn.
  rewrite take_insert_ge by lia.
  by rewrite take_take, Nat.min_l by lia.
Qed.

Lemma pop_backs_spec (n : nat) :
  forall v,
  wf v -> Z.of_nat n <= size v ->
  exists v',
    run_operations (replicate n PopBack) v = Done (tt, v') /\
    wf v' /\
    size v' = size v - Z.of_nat n /\
    capacity v' = capacity v /\
    contents v' = take (Z.to_nat (size v) - n) (contents v) /\
    calls v' = calls v ++
      (DestroyCall <$> reverse (drop (Z.to_nat (size v) - n) (contents v))) /\
    same_callbacks v v'.
Proof.
  induction n as [|n IH]; intros v Hwf Hn.
  - exists v. cbn. rewrite Nat.sub_0_r.
    rewrite take_ge, drop_ge by (rewrite length_contents by done; lia).
    cbn. rewrite app_nil_r.
    split; [done|]. split; [done|]. split; [lia|]. by repeat split.
  - assert (0 < size v) as Hpos by lia.
    pose proof (vector_pop_back_nonempty v Hwf Hpos) as Hrun1.
    pose proof (wf_popped v Hwf Hpos) as Hwf1.
    destruct (IH (popped v) Hwf1) as
      (v' & Hrun & Hwf' & Hsize & Hcap & Hcont & Hcalls & Hcb); [cbn; lia|].
    exists v'. cbn [replicate run_operations run_operation].
    split; [by rewrite (bind_done _ _ _ _ _ Hrun1)|].
    split; [done|]. split; [cbn in Hsize; lia|]. split; [done|].
    change (size (popped v)) with (size v - 1) in Hcont, Hcalls.
    rewrite contents_popped in Hcont, Hcalls by done.
    split.
    { rewrite Hcont, take_take. f_equal. lia. }
    split; [|done].
    rewrite Hcalls. cbn [calls popped set_array record_call].
    rewrite <- app_assoc. f_equal.
    rewrite (contents_last v Hwf Hpos) at 2.
    rewrite drop_app_le by (rewrite length_take, length_contents by done; lia).
    rewrite reverse_app. cbn.
    replace (Z.to_nat (size v) - S n)%nat with (Z.to_nat (size v - 1) - n)%nat by lia.
    done.
Qed.

(** *** The slots behind the last element *)

Lemma tail_clear_create (cc : elem -> slot elem) (dt : slot elem -> unit)
    (dc : unit -> slot elem) :
  tail_clear (vector_create cc dt dc).
Proof.
  intros j Hj. cbn [vector_create array size] in *.
  rewrite length_replicate in Hj. apply lookup_replicate_2. lia.
Qed.

Lemma tail_clear_grown v cap :
  wf v -> tail_clear v -> tail_clear (grown cap v).
Proof.
  intros [Hblock Hsize _ _] Htail j Hj. cbn in *.
  rewrite length_app, length_replicate in Hj.
  destruct (decide (j < length (array v))%nat).
  - rewrite lookup_app_l by done. apply Htail. lia.
  - rewrite lookup_app_r by lia. apply lookup_replicate_2. lia.
Qed.

Lemma tail_clear_appended v x :
  wf v -> size v < capacity v -> tail_clear v -> tail_clear (appended x v).
Proof.
  intros [Hblock Hsize _ _] Hroom Htail j Hj. cbn in *.
  rewrite length_insert in Hj.
  rewrite list_lookup_insert_ne by lia. apply Htail. lia.
Qed.

Lemma tail_clear_popped v :
  wf v -> 0 < size v -> tail_clear v -> tail_clear (popped v).
Proof.
  intros [Hblock Hsize _ _] Hpos Htail j Hj. cbn in *.
  rewrite length_insert in Hj.
  destruct (decide (j = Z.to_nat (size v - 1))) as [->|Hne].
  - apply list_lookup_insert_eq. lia.
  - rewrite list_lookup_insert_ne by lia. apply Htail. lia.
Qed.

Lemma tail_clear_overwritten v position x :
  wf v -> 0 <= position < size v -> tail_clear v ->
  tail_clear (overwritten position x v).
Proof.
  intros [Hblock Hsize _ _] Hpos Htail j Hj. cbn in *.
  rewrite length_insert in Hj.
  rewrite list_lookup_insert_ne by lia. apply Htail. lia.
Qed.

Lemma reserve_if_full_run v :
  wf v -> size v < MAX_SLOTS ->
  (if size v =? capacity v then vector_reserve (wrap (capacity v + 1)) else ret tt) v
  = Done (tt, if size v =? capacity v then grown (2 * capacity v) v else v).
Proof.
  intros Hwf Hmax. pose proof Hwf as [Hblock Hsize Hpow Hcapmax].
  pose proof (wf_capacity_pos v Hwf) as Hpos.
  destruct (Z.eqb_spec (size v) (capacity v)) as [Hfull|Hroom]; [|done].
  destruct Hpow as (k & Hk & Hpow).
  assert (k < 60) as Hk60.
  { apply pow2_lt_inv; [lia|lia|]. unfold MAX_SLOTS in *. lia. }
  assert (2 * capacity v = 2 ^ (k + 1)) as Hnext.
  { rewrite Hpow, Z.pow_add_r by lia. lia. }
  assert (2 * capacity v <= MAX_SLOTS) as Hdouble.
  { rewrite Hnext. apply pow2_le. lia. }
  rewrite wrap_small by size_lia.
  apply vector_reserve_grow; [done|lia| |lia].
  rewrite Hnext, Hpow. apply get_new_capacity_next. lia.
Qed.

Lemma vector_reserve_inv v n v' :
  wf v -> vector_reserve n v = Done (tt, v') ->
  v' = v \/ exists cap, v' = grown cap v /\ capacity v < cap.
Proof.
  intros Hwf Hrun. pose proof Hwf as [Hblock Hsize Hpow Hmax].
  destruct (Z.le_gt_cases n (capacity v)) as [Hfit|Hgrow].
  - rewrite vector_reserve_noop in Hrun by done. left. congruence.
  - destruct (Z.le_gt_cases n MAX_SLOTS) as [Hok|Hbig].
    + destruct (get_new_capacity_within n Hok) as (cap & Hcap & Hpow' & Hle & _).
      rewrite (vector_reserve_grow v n cap) in Hrun by (done || lia).
      right. exists cap. split; [congruence|lia].
    + destruct (vector_reserve_too_large v n Hwf Hbig) as [Hout|[Hdiv _]]; congruence.
Qed.

Lemma vector_reserve_tail v n v' :
  wf v -> tail_clear v -> vector_reserve n v = Done (tt, v') -> tail_clear v'.
Proof.
  intros Hwf Htail Hrun.
  destruct (vector_reserve_inv v n v' Hwf Hrun) as [->|(cap & -> & _)]; [done|].
  by apply tail_clear_grown.
Qed.

Lemma vector_push_back_tail v x v' :
  wf v -> tail_clear v -> vector_push_back x v = Done (tt, v') -> tail_clear v'.
Proof.
  intros Hwf Htail Hrun. pose proof Hwf as [Hblock Hsize Hpow Hmax].
  pose proof (wf_capacity_pos v Hwf) as Hpos.
  destruct (Z.le_gt_cases MAX_SLOTS (size v)) as [Hbig|Hsmall].
  { rewrite vector_push_back_overflow in Hrun by (done || lia). done. }
  destruct (decide (size v = capacity v)) as [Hfull|Hroom].
  - pose proof (reserve_if_full_run v Hwf Hsmall) as Hguard.
    destruct (Z.eqb_spec (size v) (capacity v)); [|lia].
    assert (wf (grown (2 * capacity v) v)) as Hwf1.
    { destruct (reserve_if_full v Hwf Hsmall) as (v1 & Hrun1 & Hwf1 & _).
      destruct (Z.eqb_spec (size v) (capacity v)); [|lia]. congruence. }
    pose proof Hwf1 as [_ _ _ Hmax1]. cbn in Hmax1.
    rewrite vector_push_back_full in Hrun by (done || lia).
    injection Hrun as <-.
    apply tail_clear_appended; [done|cbn; lia|by apply tail_clear_grown].
  - rewrite vector_push_back_room in Hrun by (done || lia).
    injection Hrun as <-. apply tail_clear_appended; [done|lia|done].
Qed.

Lemma push_backs_tail (xs : list (slot elem)) :
  forall v v',
  wf v -> tail_clear v ->
  run_operations (PushBack <$> xs) v = Done (tt, v') -> tail_clear v'.
Proof.
  induction xs as [|x xs IH]; intros v v' Hwf Htail Hrun.
  - cbn in Hrun. by injection Hrun as <-.
  - cbn [fmap list_fmap run_operations run_operation] in Hrun.
    apply bind_inv in Hrun as ([] & v1 & Hrun1 & Hrun2).
    eapply IH; [| |done].
    + destruct (vector_push_back_outcome v x Hwf) as [(v2 & Hrun' & Hwf2)|Hout];
        congruence.
    + by eapply vector_push_back_tail.
Qed.

Lemma vector_pop_back_tail v v' :
  wf v -> tail_clear v -> vector_pop_back v = Done (tt, v') -> tail_clear v'.
Proof.
  intros Hwf Htail Hrun. pose proof Hwf as [Hblock Hsize Hpow Hmax].
  destruct (decide (size v = 0)) as [Hempty|Hne].
  - rewrite vector_pop_back_empty in Hrun by (done || size_lia). done.
  - rewrite vector_pop_back_nonempty in Hrun by (done || lia).
    injection Hrun as <-. apply tail_clear_popped; [done|lia|done].
Qed.

Lemma vector_set_tail v position x v' :
  wf v -> tail_clear v -> 0 <= position ->
  vector_set position x v = Done (tt, v') -> tail_clear v'.
Proof.
  intros Hwf Htail Hpos Hrun. pose proof Hwf as [Hblock Hsize Hpow Hmax].
  destruct (Z.lt_trichotomy position (size v)) as [Hlt|[->|Hgt]].
  - rewrite vector_set_overwrite in Hrun by (done || lia).
    injection Hrun as <-. apply tail_clear_overwritten; [done|lia|done].
  - destruct (decide (size v = capacity v)) as [Hfull|Hroom].
    + by rewrite vector_set_full in Hrun.
    + rewrite vector_set_append in Hrun by (done || lia).
      injection Hrun as <-. apply tail_clear_appended; [done|lia|done].
  - rewrite vector_set_beyond in Hrun by lia. by injection Hrun as <-.
Qed.

Lemma vector_erase_room_slots v position :
  wf v -> 0 <= position < size v -> size v < capacity v ->
  exists a',
    vector_erase position v = Done (tt, erased position a' v) /\
    length a' = length (array v) /\
    (forall j, (j < Z.to_nat position)%nat -> a' !! j = array v !! j) /\
    (forall j, (Z.to_nat position <= j < Z.to_nat (size v))%nat ->
               a' !! j = array v !! S j) /\
    (forall j, (Z.to_nat (size v) <= j)%nat -> a' !! j = array v !! j).
Proof.
  intros [Hblock Hsize _ Hmax] Hpos Hroom. unfold vector_erase.
  rewrite bind_reads.
  destruct (Z.leb_spec (size v) position); [lia|].
  rewrite (bind_done _ _ _ _ _ (load_in position v ltac:(lia))).
  rewrite bind_call_destructor.
  set (v0 := record_call _ v).
  destruct (erase_loop_room (S (Z.to_nat (size v - position))) position v0)
    as (a' & Hrun & Hlen & Hlow & Hmid & Hhigh); [subst v0; cbn; lia..|].
  change (size v0) with (size v) in *. change (array v0) with (array v) in *.
  rewrite (bind_done _ _ _ _ _ Hrun).
  rewrite bind_reads. unfold modify. subst v0. cbn [size set_array record_call].
  rewrite wrap_small by size_lia.
  by exists a'.
Qed.

Lemma vector_erase_tail v position v' :
  wf v -> tail_clear v -> 0 <= position ->
  vector_erase position v = Done (tt, v') -> tail_clear v'.
Proof.
  intros Hwf Htail Hpos Hrun. pose proof Hwf as [Hblock Hsize Hpow Hmax].
  destruct (Z.le_gt_cases (size v) position) as [Hout|Hin].
  - rewrite vector_erase_noop in Hrun by done. by injection Hrun as <-.
  - destruct (decide (size v = capacity v)) as [Hfull|Hroom].
    + by rewrite vector_erase_full in Hrun by (done || lia).
    + destruct (vector_erase_room_slots v position Hwf) as
        (a' & Hrun' & Hlen & _ & Hmid & Hhigh); [lia..|].
      rewrite Hrun' in Hrun. injection Hrun as <-.
      intros j Hj. cbn in *.
      destruct (decide (j < Z.to_nat (size v))%nat).
      * rewrite Hmid by lia. apply Htail. lia.
      * rewrite Hhigh by lia. apply Htail. lia.
Qed.

Lemma vector_insert_inner_slots v position x :
  wf v -> size v < MAX_SLOTS -> 1 <= position <= size v ->
  exists a',
    vector_insert position x v
    = Done (tt, inserted position x a'
                  (if size v =? capacity v then grown (2 * capacity v) v else v)) /\
    length a'
    = length (array (if size v =? capacity v then grown (2 * capacity v) v else v)) /\
    (forall j, (Z.to_nat (size v) < j)%nat ->
       a' !! j
       = array (if size v =? capacity v then grown (2 * capacity v) v else v) !! j).
Proof.
  intros Hwf Hmax Hpos. unfold vector_insert. rewrite !bind_reads.
  destruct (reserve_if_full v Hwf Hmax) as
    (v1 & Hrun & Hwf1 & Hsz & Hroom & _).
  rewrite (reserve_if_full_run v Hwf Hmax) in Hrun. injection Hrun as Hv1.
  rewrite (bind_done _ _ _ _ _ (reserve_if_full_run v Hwf Hmax)).
  rewrite Hv1. pose proof Hwf1 as [Hblock1 Hsize1 _ Hmax1].
  rewrite bind_reads.
  destruct (insert_loop_shift (S (S (Z.to_nat (size v1)))) position ltac:(lia)
              (size v1) v1) as (a' & Hloop & Hlen & Hlow & Hmid & Hhigh); [lia..|].
  rewrite (bind_done _ _ _ _ _ Hloop).
  rewrite (bind_done _ _ _ _ _ (copy_or_null_run x _)).
  erewrite bind_done by (apply store_in; cbn; lia).
  rewrite bind_reads. unfold modify. cbn [size set_array record_calls].
  rewrite wrap_small by size_lia.
  exists a'. split; [done|]. split; [done|].
  intros j Hj. apply Hhigh. lia.
Qed.

Lemma vector_insert_zero v x : wf v -> vector_insert 0 x v = OutOfBounds.
Proof.
  intros Hwf. pose proof Hwf as [Hblock Hsize _ Hmax].
  destruct (Z.le_gt_cases MAX_SLOTS (size v)) as [Hbig|Hsmall].
  - unfold vector_insert. rewrite !bind_reads.
    destruct (Z.eqb_spec (size v) (capacity v)); [|lia].
    apply bind_out_of_bounds.
    rewrite wrap_small by size_lia.
    apply vector_reserve_wraps; [lia|size_lia|lia].
  - by apply vector_insert_front.
Qed.

Lemma vector_insert_tail v position x v' :
  wf v -> tail_clear v -> 0 <= position <= size v ->
  vector_insert position x v = Done (tt, v') -> tail_clear v'.
Proof.
  intros Hwf Htail Hpos Hrun. pose proof Hwf as [Hblock Hsize Hpow Hmax].
  destruct (decide (position = 0)) as [->|Hne].
  { by rewrite vector_insert_zero in Hrun. }
  destruct (Z.le_gt_cases MAX_SLOTS (size v)) as [Hbig|Hsmall].
  { exfalso. revert Hrun. unfold vector_insert. rewrite !bind_reads.
    destruct (Z.eqb_spec (size v) (capacity v)); [|lia].
    rewrite (bind_out_of_bounds (vector_reserve _)); [done|].
    rewrite wrap_small by size_lia.
    apply vector_reserve_wraps; [lia|size_lia|lia]. }
  destruct (vector_insert_inner_slots v position x Hwf Hsmall) as
    (a' & Hrun' & Hlen & Hhigh); [lia|].
  rewrite Hrun' in Hrun. injection Hrun as <-.
  set (v1 := if size v =? capacity v then grown (2 * capacity v) v else v) in *.
  assert (tail_clear v1 /\ size v1 = size v) as [Htail1 Hsz1].
  { subst v1. destruct (size v =? capacity v); [|done].
    split; [by apply tail_clear_grown|done]. }
  intros j Hj. cbn in *. rewrite length_insert in Hj.
  rewrite list_lookup_insert_ne by lia.
  rewrite Hhigh by lia. apply Htail1. lia.
Qed.

Lemma tail_clear_record_call v (c : @call elem) : tail_clear v -> tail_clear (record_call c v).
Proof. done. Qed.

(** The loops of [vector_clear] and of the shrinking branch of
    [vector_resize] leave the slots from [size] on as they are. *)
Lemma clear_loop_frame (fuel : nat) v i l v' :
  while fuel (fun i v => i <? size v)
    (fun i => p ← load i;
              match p with
              | Some _ => call_destructor p;; store i None
              | None => ret tt
              end;;
              ret (wrap (i + 1))) i v = Done (l, v') ->
  forall j, (Z.to_nat (size v) <= j)%nat -> array v' !! j = array v !! j.
Proof.
  intros Hrun.
  apply (while_invariant
           (fun _ w => size w = size v /\
              forall j, (Z.to_nat (size v) <= j)%nat -> array w !! j = array v !! j))
    in Hrun as [[_ H] _]; [done| |done].
  clear. intros i w i' w' [Hsz Hframe] Hcond Hbody.
  apply Z.ltb_lt in Hcond.
  apply bind_inv in Hbody as (p & w1 & Hload & Hbody).
  apply load_inv in Hload as (-> & _ & Hi).
  apply bind_inv in Hbody as ([] & w2 & Hmid & Hret).
  injection Hret as <- <-.
  destruct p as [e|].
  - rewrite bind_call_destructor in Hmid.
    apply store_inv in Hmid as [-> _]. cbn. split; [done|].
    intros j Hj. rewrite list_lookup_insert_ne by lia. by apply Hframe.
  - injection Hmid as <-. done.
Qed.

Lemma resize_shrink_loop_frame (fuel : nat) v i l v' :
  while fuel (fun i v => i <? size v)
    (fun i => p ← load i; call_destructor p;; store i None;; ret (wrap (i + 1)))
    i v = Done (l, v') ->
  forall j, (Z.to_nat (size v) <= j)%nat -> array v' !! j = array v !! j.
Proof.
  intros Hrun.
  apply (while_invariant
           (fun _ w => size w = size v /\
              forall j, (Z.to_nat (size v) <= j)%nat -> array w !! j = array v !! j))
    in Hrun as [[_ H] _]; [done| |done].
  clear. intros i w i' w' [Hsz Hframe] Hcond Hbody.
  apply Z.ltb_lt in Hcond.
  apply bind_inv in Hbody as (p & w1 & Hload & Hbody).
  apply load_inv in Hload as (-> & _ & Hi).
  rewrite bind_call_destructor in Hbody.
  apply bind_inv in Hbody as ([] & w2 & Hstore & Hret).
  injection Hret as <- <-.
  apply store_inv in Hstore as [-> _]. cbn. split; [done|].
  intros j Hj. rewrite list_lookup_insert_ne by lia. by apply Hframe.
Qed.

Lemma vector_clear_tail v v' :
  wf v -> tail_clear v -> vector_clear v = Done (tt, v') -> tail_clear v'.
Proof.
  intros Hwf Htail Hrun. pose proof Hwf as [Hblock Hsize _ Hmax].
  destruct (vector_clear_spec v Hwf) as (v'' & Hrun' & _ & Hsz & _ & Hnull & _).
  assert (v'' = v') as -> by congruence.
  unfold vector_clear in Hrun. rewrite bind_reads in Hrun.
  apply bind_inv in Hrun as (l & v2 & Hloop & Hset).
  injection Hset as <-.
  pose proof (clear_loop_frame _ _ _ _ _ Hloop) as Hframe.
  assert (length (array v2) = length (array v)) as Hlen.
  { destruct (clear_loop (S (Z.to_nat (size v))) 0 v) as
      (v3 & Hrun3 & _ & _ & Hlen & _); [lia..|]. congruence. }
  intros j Hj. cbn in *.
  destruct (decide (j < Z.to_nat (size v))%nat).
  - replace j with (Z.to_nat (Z.of_nat j)) by lia. apply Hnull. lia.
  - rewrite Hframe by lia. apply Htail. lia.
Qed.

Lemma vector_resize_tail v n v' :
  wf v -> tail_clear v -> 0 <= n ->
  vector_resize n v = Done (tt, v') -> tail_clear v'.
Proof.
  intros Hwf Htail Hn Hrun.
  unfold vector_resize in Hrun. rewrite bind_reads in Hrun.
  apply bind_inv in Hrun as (u & v1 & Hguard & Hrest).
  assert (wf v1 /\ tail_clear v1) as [Hwf1 Htail1].
  { destruct (capacity v <? n).
    - destruct u. split; [|by eapply vector_reserve_tail].
      destruct (vector_reserve_outcome v n Hwf) as [(v2 & Hrun2 & Hwf2)|[?|[? _]]];
        congruence.
    - unfold ret in Hguard. injection Hguard as _ <-. done. }
  clear Hguard. pose proof Hwf1 as [Hblock1 Hsize1 _ Hmax1].
  rewrite bind_reads in Hrest.
  destruct (Z.ltb_spec (size v1) n) as [Hup|Hnup].
  - apply (while_invariant (fun _ w => wf w /\ tail_clear w)) in Hrest as [[_ H] _];
      [done| |done].
    clear. intros [] w l' w' [Hwf Htail] _ Hbody.
    apply bind_inv in Hbody as (ele & w1 & Hdef & Hbody).
    injection Hdef as <- <-.
    apply bind_inv in Hbody as ([] & w2 & Hpush & Hdestroy).
    injection Hdestroy as <- <-.
    pose proof (wf_record_call w DefaultCall Hwf) as Hwf1.
    split.
    + apply wf_record_call.
      destruct (vector_push_back_outcome _ (default_constructor w tt) Hwf1)
        as [(v2 & Hrun2 & Hwf2)|?]; congruence.
    + apply tail_clear_record_call.
      by eapply (vector_push_back_tail _ _ _ Hwf1).
  - destruct (Z.ltb_spec n (size v1)) as [Hdown|Hsame].
    + apply bind_inv in Hrest as (l & v2 & Hloop & Hset).
      injection Hset as <-.
      pose proof (resize_shrink_loop_frame _ _ _ _ _ Hloop) as Hframe.
      destruct (resize_shrink_loop (S (Z.to_nat (size v1 - n))) n v1)
        as (v3 & Hloop3 & _ & _ & Hlen & _ & Hnull & _); [done|done|lia|lia|lia|].
      assert (v3 = v2) as -> by congruence.
      intros j Hj. cbn in *.
      destruct (decide (j < Z.to_nat (size v1))%nat).
      * apply Hnull. lia.
      * rewrite Hframe by lia. apply Htail1. lia.
    + injection Hrest as <-. done.
Qed.

(** The representation invariant together with [tail_clear] is kept by
    every operation that returns, except for an [insert] behind the last
    element. *)
Lemma run_operation_tail (o : @operation elem) v v' :
  wf v -> tail_clear v -> operation_in_range o ->
  (forall position x, o = Insert position x -> position <= size v) ->
  run_operation o v = Done (tt, v') -> tail_clear v'.
Proof.
  intros Hwf Htail Hrange Hins Hrun.
  destruct o as [x| |p x|p|p x|n|n|]; cbn in *.
  - by eapply vector_push_back_tail.
  - by eapply vector_pop_back_tail.
  - eapply vector_insert_tail; [done|done| |done].
    split; [apply Hrange|by eapply Hins].
  - eapply vector_erase_tail; [done|done| |done]. apply Hrange.
  - eapply vector_set_tail; [done|done| |done]. apply Hrange.
  - eapply vector_resize_tail; [done|done| |done]. apply Hrange.
  - by eapply vector_reserve_tail.
  - by eapply vector_clear_tail.
Qed.

(** *** vector_destroy *)

Lemma destroy_loop (fuel : nat) :
  forall i v,
  0 <= i <= capacity v -> capacity v = Z.of_nat (length (array v)) ->
  capacity v <= MAX_SLOTS ->
  capacity v - i < Z.of_nat fuel ->
  exists v',
    while fuel (fun i v => i <? capacity v)
      (fun i => p ← load i;
                match p with
                | Some _ => call_destructor p;; store i None
                | None => ret tt
                end;;
                ret (wrap (i + 1))) i v = Done (capacity v, v') /\
    calls v' = calls v ++ (DestroyCall <$> live (drop (Z.to_nat i) (array v))) /\
    size v' = size v /\ capacity v' = capacity v /\ same_callbacks v v'.
Proof.
  induction fuel as [|fuel IH]; intros i v Hi Hblock Hmax Hfuel; [lia|].
  cbn [while].
  destruct (Z.ltb_spec i (capacity v)) as [Hlt|Hge].
  - rewrite (bind_done _ _ _ _ _ (load_in i v ltac:(lia))).
    destruct (lookup_lt_is_Some_2 (array v) (Z.to_nat i)) as [a Ha]; [lia|].
    rewrite (drop_lookup_cons _ _ _ Ha).
    replace (slot_at v i) with a by (unfold slot_at; by rewrite Ha).
    unfold live. rewrite filter_cons.
    destruct a as [e|].
    + rewrite bind_run, bind_call_destructor.
      rewrite store_in by (cbn; lia). cbn match.
      unfold ret at 1. rewrite wrap_small by size_lia.
      set (v1 := set_array _ _).
      destruct (IH (i + 1) v1) as (v' & Hrun & Hcalls & Hsz & Hcap & Hcb);
        [subst v1; cbn; rewrite ?length_insert; lia..|].
      exists v'. subst v1. cbn in *.
      rewrite drop_insert_lt in Hcalls by lia.
      replace (Z.to_nat (i + 1)) with (S (Z.to_nat i)) in Hcalls by lia.
      split; [done|]. split; [|done].
      rewrite decide_True by done. cbn. rewrite Hcalls, <- app_assoc. done.
    + rewrite bind_run. cbn match. unfold ret at 1 2.
      rewrite wrap_small by size_lia.
      destruct (IH (i + 1) v) as (v' & Hrun & Hcalls & Hsz & Hcap & Hcb); [lia..|].
      exists v'.
      replace (Z.to_nat (i + 1)) with (S (Z.to_nat i)) in Hcalls by lia.
      split; [done|]. split; [|done].
      rewrite decide_False by (intros [? ?]; done). done.
  - exists v. replace i with (capacity v) by lia.
    rewrite drop_ge by lia. cbn. rewrite app_nil_r.
    split; [done|]. split; [done|]. split; [done|]. split; [done|].
    apply same_callbacks_refl.
Qed.

Lemma vector_destroy_spec v :
  wf v ->
  exists v',
    vector_destroy v = Done (tt, v') /\
    array v' = [] /\
    calls v' = calls v ++ (DestroyCall <$> live (array v)).
Proof.
  intros [Hblock Hsize _ Hmax]. unfold vector_destroy. rewrite bind_reads.
  destruct (destroy_loop (S (Z.to_nat (capacity v))) 0 v) as
    (v' & Hrun & Hcalls & _); [lia..|].
  rewrite (bind_done _ _ _ _ _ Hrun).
  exists (set_array [] v'). split; [done|]. split; [done|]. done.
Qed.

Lemma live_app (a b : list (slot elem)) : live (a ++ b) = live a ++ live b.
Proof. apply filter_app. Qed.

Lemma live_nulls (a : list (slot elem)) :
  (forall j, (j < length a)%nat -> a !! j = Some None) -> live a = [].
Proof.
  induction a as [|p a IH]; intros H; [done|].
  unfold live. rewrite filter_cons.
  pose proof (H 0%nat ltac:(cbn; lia)) as H0. cbn in H0. injection H0 as ->.
  rewrite decide_False by (intros [? ?]; done).
  apply IH. intros j Hj. apply (H (S j)). cbn. lia.
Qed.

Lemma live_tail_clear v : wf v -> tail_clear v -> live (array v) = live (contents v).
Proof.
  intros [Hblock Hsize _ _] Htail.
  rewrite <- (take_drop (Z.to_nat (size v)) (array v)) at 1.
  rewrite live_app. fold (contents v).
  rewrite (live_nulls (drop _ _)); [by rewrite app_nil_r|].
  intros j Hj. rewrite length_drop in Hj. rewrite lookup_drop.
  apply Htail. lia.
Qed.

(** *** vector_insert behind the last element *)

Lemma vector_insert_beyond v position x :
  wf v -> size v < position < capacity v ->
  vector_insert position x v = Done (tt, inserted position x (array v) v).
Proof.
  intros [Hblock Hsize _ Hmax] Hpos. unfold vector_insert. rewrite !bind_reads.
  destruct (Z.eqb_spec (size v) (capacity v)); [lia|].
  rewrite bind_ret, bind_reads.
  cbn [while]. destruct (Z.leb_spec position (size v)); [lia|].
  rewrite (bind_done _ _ _ (size v) v) by done.
  rewrite (bind_done _ _ _ _ _ (copy_or_null_run x _)).
  erewrite bind_done by (apply store_in; cbn; lia).
  rewrite bind_reads. unfold modify. cbn [size set_array record_calls].
  by rewrite wrap_small by size_lia.
Qed.

End MoreFacts.

(** ** Further properties of vector.c *)

(** Well-formedness of a vector that is written out. *)
Ltac wf_concrete k :=
  split; cbn; [reflexivity | lia | by exists k | vm_compute; discriminate].

(** [tail_clear] of a vector of eight slots that is written out. *)
Ltac tail_concrete :=
  let j := fresh "j" in
  let Hj := fresh "Hj" in
  intros j Hj; cbn in Hj |- *;
  do 8 (destruct j as [|j]; [first [lia | reflexivity]|]); lia.

(** X1: for a target of at most [2 ^ 63], [get_new_capacity] returns the
    least power of two that is at least the target (1 for the targets 0 and
    1). *)
Theorem get_new_capacity_least_power (target : Z) :
  target <= 2 ^ 63 ->
  exists c,
    get_new_capacity target = Some c /\
    power_of_two c /\ target <= c /\
    forall c', power_of_two c' -> target <= c' -> c <= c'.
Proof.
  intros Ht.
  destruct (get_new_capacity_pow2 target Ht) as (k & Hk & Hrun & _).
  exists (2 ^ k). split; [done|].
  by apply get_new_capacity_least.
Qed.

Lemma get_new_capacity_least_power_witness :
  9 <= 2 ^ 63 /\
  exists c,
    get_new_capacity 9 = Some c /\
    power_of_two c /\ 9 <= c /\
    forall c', power_of_two c' -> 9 <= c' -> c <= c'.
Proof.
  split; [vm_compute; discriminate|].
  apply (get_new_capacity_least_power 9). vm_compute; discriminate.
Defined.

(** X2: for a target above [2 ^ 63] the doubling loop of [get_new_capacity]
    does not exit, however many rounds it is given: the counter reaches
    [2 ^ 63], wraps to 0 and stays below the target. *)
Theorem get_new_capacity_never_returns (fuel : nat) (target : Z) :
  2 ^ 63 < target -> get_new_capacity_loop fuel 1 target = None.
Proof.
  intros Ht. apply (get_new_capacity_loop_overflow fuel target Ht 0). lia.
Qed.

Lemma get_new_capacity_never_returns_witness :
  2 ^ 63 < 2 ^ 63 + 1 /\ get_new_capacity_loop 1000 1 (2 ^ 63 + 1) = None.
Proof.
  split; [vm_compute; reflexivity|].
  apply (get_new_capacity_never_returns 1000 (2 ^ 63 + 1)). vm_compute; reflexivity.
Defined.

(** X3: after [N] pushes on a fresh vector, with [N] at most [MAX_SLOTS],
    the capacity is the least power of two that is at least [N] and at least
    [INITIAL_CAPACITY]. *)
Theorem push_back_capacity_is_least_power {elem : Type} (cc : elem -> slot elem)
    (dt : slot elem -> unit) (dc : unit -> slot elem) (xs : list (slot elem)) :
  Z.of_nat (length xs) <= MAX_SLOTS ->
  exists v,
    run_operations (PushBack <$> xs) (vector_create cc dt dc) = Done (tt, v) /\
    power_of_two (capacity v) /\
    Z.of_nat (length xs) <= capacity v /\ INITIAL_CAPACITY <= capacity v /\
    forall c, power_of_two c -> Z.of_nat (length xs) <= c -> INITIAL_CAPACITY <= c ->
              capacity v <= c.
Proof.
  intros Hlen.
  destruct (push_backs_spec xs (vector_create cc dt dc) (wf_create cc dt dc)) as
    (v & Hrun & Hwf & Hsize & _); [cbn; lia|].
  destruct (push_backs_capacity xs _ v (wf_create cc dt dc)) as [Hmono Hcap];
    [cbn; lia|done|].
  cbn [size capacity vector_create] in Hsize, Hmono, Hcap.
  pose proof Hwf as [_ Hsz (k & Hk & Hpow) _].
  exists v. split; [done|]. split; [by exists k|]. split; [lia|]. split; [done|].
  intros c (j & Hj & ->) Hlen' Hinit.
  destruct Hcap as [->|Hless]; [done|].
  rewrite Hpow in *. apply pow2_le. split; [lia|].
  assert (k - 1 < j); [|lia].
  assert (0 <= k - 1).
  { assert (3 <= k); [|lia]. apply pow2_le_inv; [lia|lia|]. exact Hmono. }
  apply pow2_lt_inv; [lia|lia|].
  replace (2 ^ k) with (2 * 2 ^ (k - 1)) in Hless.
  - lia.
  - replace k with ((k - 1) + 1) at 2 by lia. rewrite Z.pow_add_r by lia. lia.
Qed.

Lemma push_back_capacity_is_least_power_witness :
  Z.of_nat (length [Some 1; None; Some 3]) <= MAX_SLOTS /\
  exists v,
    run_operations (PushBack <$> [Some 1; None; Some 3]) example_vector = Done (tt, v) /\
    power_of_two (capacity v) /\
    Z.of_nat (length [Some 1; None; Some 3]) <= capacity v /\
    INITIAL_CAPACITY <= capacity v /\
    forall c, power_of_two c -> Z.of_nat (length [Some 1; None; Some 3]) <= c ->
              INITIAL_CAPACITY <= c -> capacity v <= c.
Proof.
  split; [vm_compute; discriminate|].
  apply (push_back_capacity_is_least_power example_copy example_destructor
           example_default [Some 1; None; Some 3]).
  vm_compute; discriminate.
Defined.

(** X4: after [vector_reserve n], pushing elements up to a size of [n] does
    not change the capacity again, and the elements arrive in order behind
    the ones that were there. *)
Theorem reserve_then_pushes_keep_capacity {elem : Type} (v : @vector elem) (n : Z)
    (xs : list (slot elem)) :
  wf v -> n <= MAX_SLOTS -> size v + Z.of_nat (length xs) <= n ->
  exists v1 v2,
    vector_reserve n v = Done (tt, v1) /\
    run_operations (PushBack <$> xs) v1 = Done (tt, v2) /\
    capacity v2 = capacity v1 /\
    size v2 = size v + Z.of_nat (length xs) /\
    contents v2 = contents v ++ (copy_result v <$> xs).
Proof.
  intros Hwf Hn Hfit. pose proof Hwf as [Hblock Hsize Hpow Hmax].
  assert (exists v1, vector_reserve n v = Done (tt, v1) /\ wf v1 /\
            n <= capacity v1 /\ size v1 = size v /\ contents v1 = contents v /\
            same_callbacks v v1) as (v1 & Hrun1 & Hwf1 & Hcap1 & Hsz1 & Hcont1 & Hcb1).
  { destruct (Z.le_gt_cases n (capacity v)) as [Hle|Hgt].
    - exists v. split; [by apply vector_reserve_noop|].
      split; [done|]. split; [done|]. split; [done|]. split; [done|].
      apply same_callbacks_refl.
    - destruct (get_new_capacity_within n Hn) as (cap & Hcap & Hpow' & Hle & _).
      exists (grown cap v).
      split; [apply vector_reserve_grow; (done || lia)|].
      split; [apply wf_grown; [done|lia|done]|].
      split; [cbn; lia|]. split; [done|].
      split; [by apply contents_grown|]. by repeat split. }
  destruct (push_backs_spec xs v1 Hwf1) as
    (v2 & Hrun2 & _ & Hsz2 & Hcont2 & _ & _ & Hcap2); [lia|].
  exists v1, v2. split; [done|]. split; [done|].
  split; [apply Hcap2; lia|]. split; [lia|].
  rewrite Hcont2, Hcont1. f_equal.
  apply list_fmap_ext. intros _ y _. by apply copy_result_same_callbacks.
Qed.

Lemma reserve_then_pushes_keep_capacity_witness :
  wf three_vector /\ 20 <= MAX_SLOTS /\
  size three_vector + Z.of_nat (length [Some 4; Some 5]) <= 20 /\
  exists v1 v2,
    vector_reserve 20 three_vector = Done (tt, v1) /\
    run_operations (PushBack <$> [Some 4; Some 5]) v1 = Done (tt, v2) /\
    capacity v2 = capacity v1 /\
    size v2 = size three_vector + Z.of_nat (length [Some 4; Some 5]) /\
    contents v2 = contents three_vector ++ (copy_result three_vector <$> [Some 4; Some 5]).
Proof.
  split; [wf_concrete 3|]. split; [vm_compute; discriminate|].
  split; [vm_compute; discriminate|].
  apply (reserve_then_pushes_keep_capacity three_vector 20 [Some 4; Some 5]).
  - wf_concrete 3.
  - vm_compute; discriminate.
  - vm_compute; discriminate.
Defined.

(** X5: pushing [N] elements and then popping [N] times gives back the size
    and the elements the vector had; on the way each pushed copy is
    destroyed, the last one first. *)
Theorem pushes_then_pops_restore {elem : Type} (v : @vector elem)
    (xs : list (slot elem)) :
  wf v -> size v + Z.of_nat (length xs) <= MAX_SLOTS ->
  exists v',
    run_operations ((PushBack <$> xs) ++ replicate (length xs) PopBack) v
    = Done (tt, v') /\
    size v' = size v /\
    contents v' = contents v /\
    calls v' = calls v ++ concat (copy_calls <$> xs) ++
               (DestroyCall <$> reverse (copy_result v <$> xs)).
Proof.
  intros Hwf Hmax. pose proof Hwf as [_ Hsize _ _].
  destruct (push_backs_spec xs v Hwf Hmax) as
    (v1 & Hrun1 & Hwf1 & Hsz1 & Hcont1 & Hcalls1 & _).
  destruct (pop_backs_spec (length xs) v1 Hwf1) as
    (v2 & Hrun2 & _ & Hsz2 & _ & Hcont2 & Hcalls2 & _); [lia|].
  pose proof (length_contents v Hwf) as Hlen.
  replace (Z.to_nat (size v1) - length xs)%nat with (length (contents v))
    in Hcont2, Hcalls2 by lia.
  rewrite Hcont1 in Hcont2, Hcalls2.
  rewrite take_app_length in Hcont2. rewrite drop_app_length in Hcalls2.
  exists v2. rewrite run_operations_app, (bind_done _ _ _ _ _ Hrun1).
  split; [done|]. split; [lia|]. split; [done|].
  by rewrite Hcalls2, Hcalls1, <- app_assoc.
Qed.

Lemma pushes_then_pops_restore_witness :
  wf three_vector /\
  size three_vector + Z.of_nat (length [Some 4; None]) <= MAX_SLOTS /\
  exists v',
    run_operations ((PushBack <$> [Some 4; None]) ++ replicate (length [Some 4; None]) PopBack)
      three_vector = Done (tt, v') /\
    size v' = size three_vector /\
    contents v' = contents three_vector /\
    calls v' = calls three_vector ++ concat (copy_calls <$> [Some 4; None]) ++
               (DestroyCall <$> reverse (copy_result three_vector <$> [Some 4; None])).
Proof.
  split; [wf_concrete 3|]. split; [vm_compute; discriminate|].
  apply (pushes_then_pops_restore three_vector [Some 4; None]).
  - wf_concrete 3.
  - vm_compute; discriminate.
Defined.

(** X6: [vector_clear] on a well-formed vector returns with size 0 and the
    capacity it had; the slots in [[0, size)] are cleared; the destructor is
    called once for each element that is not [NULL], in index order, and is
    not called for [NULL] elements; [vector_empty] is true afterwards. *)
Theorem clear_contract {elem : Type} (v : @vector elem) :
  wf v ->
  exists v',
    vector_clear v = Done (tt, v') /\
    size v' = 0 /\ capacity v' = capacity v /\
    (forall j, 0 <= j < size v -> slot_at v' j = None) /\
    calls v' = calls v ++ (DestroyCall <$> live (contents v)) /\
    vector_empty v' = Done (true, v').
Proof.
  intros Hwf.
  destruct (vector_clear_spec v Hwf) as (v' & Hrun & _ & Hsz & Hcap & Hnull & Hcalls & _).
  exists v'. split; [done|]. split; [done|]. split; [done|].
  split; [intros j Hj; unfold slot_at; by rewrite Hnull|].
  split; [done|].
  unfold vector_empty, reads. by rewrite Hsz.
Qed.

Lemma clear_contract_witness :
  wf three_vector /\
  exists v',
    vector_clear three_vector = Done (tt, v') /\
    size v' = 0 /\ capacity v' = capacity three_vector /\
    (forall j, 0 <= j < size three_vector -> slot_at v' j = None) /\
    calls v' = calls three_vector ++ (DestroyCall <$> live (contents three_vector)) /\
    vector_empty v' = Done (true, v').
Proof.
  split; [wf_concrete 3|].
  apply (clear_contract three_vector). wf_concrete 3.
Defined.

(** X7: [vector_clear] followed by pushes leaves exactly the copies of the
    pushed elements, in order, and the capacity is the one from before the
    [clear] as long as the pushed elements fit into it. *)
Theorem clear_then_pushes {elem : Type} (v : @vector elem) (xs : list (slot elem)) :
  wf v -> Z.of_nat (length xs) <= MAX_SLOTS ->
  exists v',
    run_operations (Clear :: (PushBack <$> xs)) v = Done (tt, v') /\
    size v' = Z.of_nat (length xs) /\
    contents v' = copy_result v <$> xs /\
    (Z.of_nat (length xs) <= capacity v -> capacity v' = capacity v).
Proof.
  intros Hwf Hlen.
  destruct (vector_clear_spec v Hwf) as (v1 & Hrun1 & Hwf1 & Hsz1 & Hcap1 & _ & _ & Hcb1).
  destruct (push_backs_spec xs v1 Hwf1) as
    (v2 & Hrun2 & _ & Hsz2 & Hcont2 & _ & _ & Hcap2); [lia|].
  exists v2. cbn [run_operations run_operation].
  rewrite (bind_done _ _ _ _ _ Hrun1).
  split; [done|]. split; [lia|]. split.
  - rewrite Hcont2. unfold contents at 1. rewrite Hsz1. cbn.
    apply list_fmap_ext. intros _ y _. by apply copy_result_same_callbacks.
  - intros Hfit. rewrite Hcap2 by lia. done.
Qed.

Lemma clear_then_pushes_witness :
  wf three_vector /\ Z.of_nat (length [Some 4; None]) <= MAX_SLOTS /\
  exists v',
    run_operations (Clear :: (PushBack <$> [Some 4; None])) three_vector = Done (tt, v') /\
    size v' = Z.of_nat (length [Some 4; None]) /\
    contents v' = copy_result three_vector <$> [Some 4; None] /\
    (Z.of_nat (length [Some 4; None]) <= capacity three_vector ->
     capacity v' = capacity three_vector).
Proof.
  split; [wf_concrete 3|]. split; [vm_compute; discriminate|].
  apply (clear_then_pushes three_vector [Some 4; None]).
  - wf_concrete 3.
  - vm_compute; discriminate.
Defined.

(** X8: [vector_erase] at a position below [size], on a vector that is not
    full, removes that element and moves the later ones down by one; the size
    drops by 1, the capacity stays, and the destructor is called exactly
    once, on the removed slot (also when that slot is [NULL]). *)
Theorem erase_in_room {elem : Type} (v : @vector elem) (position : Z) :
  wf v -> 0 <= position < size v -> size v < capacity v ->
  exists v',
    vector_erase position v = Done (tt, v') /\
    size v' = size v - 1 /\ capacity v' = capacity v /\
    contents v' = take (Z.to_nat position) (contents v) ++
                  drop (S (Z.to_nat position)) (contents v) /\
    calls v' = calls v ++ [DestroyCall (slot_at v position)].
Proof.
  intros Hwf Hpos Hroom.
  destruct (vector_erase_room v position Hwf Hpos Hroom) as (a' & Hrun & Hlen & Hcont).
  exists (erased position a' v). by repeat split.
Qed.

Lemma erase_in_room_witness :
  wf three_vector /\ 0 <= 1 < size three_vector /\
  size three_vector < capacity three_vector /\
  exists v',
    vector_erase 1 three_vector = Done (tt, v') /\
    size v' = size three_vector - 1 /\ capacity v' = capacity three_vector /\
    contents v' = take (Z.to_nat 1) (contents three_vector) ++
                  drop (S (Z.to_nat 1)) (contents three_vector) /\
    calls v' = calls three_vector ++ [DestroyCall (slot_at three_vector 1)].
Proof.
  split; [wf_concrete 3|]. split; [cbn; lia|]. split; [cbn; lia|].
  apply (erase_in_room three_vector 1).
  - wf_concrete 3.
  - cbn; lia.
  - cbn; lia.
Defined.

(** X9: [vector_insert] at a position with [1 <= position <= size] puts a
    copy of the element at that position, in front of the elements that were
    at [position] and behind; the size grows by 1, the capacity doubles when
    the vector was full, the copy constructor is the only callback invoked,
    and [vector_get] at [position] returns the copy. *)
Theorem insert_inner {elem : Type} (v : @vector elem) (position : Z) (x : slot elem) :
  wf v -> size v < MAX_SLOTS -> 1 <= position <= size v ->
  exists v',
    vector_insert position x v = Done (tt, v') /\
    size v' = size v + 1 /\
    capacity v' = (if size v =? capacity v then 2 * capacity v else capacity v) /\
    contents v' = take (Z.to_nat position) (contents v) ++ copy_result v x ::
                  drop (Z.to_nat position) (contents v) /\
    calls v' = calls v ++ copy_calls x /\
    vector_get position v' = Done (copy_result v x, v').
Proof.
  intros Hwf Hmax Hpos.
  destruct (vector_insert_inner v position x Hwf Hmax Hpos) as
    (v1 & a' & Hrun & Hwf1 & Hsz & Hroom & Hcalls & _ & Hcap & Hlen & Hcont).
  pose proof (wf_inserted v1 position x a' Hwf1 ltac:(lia) Hlen) as [Hblock' Hsize' _ _].
  exists (inserted position x a' v1).
  split; [done|]. split; [cbn; lia|]. split; [done|]. split; [done|].
  split; [cbn; by rewrite Hcalls|].
  rewrite vector_get_in by (done || cbn in *; lia).
  do 2 f_equal.
  assert (slot_at (inserted position x a' v1) (Z.of_nat (Z.to_nat position))
          = copy_result v x) as Hslot.
  { apply slot_at_contents. rewrite Hcont.
    pose proof (length_contents v Hwf).
    rewrite lookup_app_r by (rewrite length_take; lia).
    rewrite length_take. by replace (_ - _)%nat with 0%nat by lia. }
  by rewrite Z2Nat.id in Hslot by lia.
Qed.

Lemma insert_inner_witness :
  wf three_vector /\ size three_vector < MAX_SLOTS /\ 1 <= 1 <= size three_vector /\
  exists v',
    vector_insert 1 (Some 99) three_vector = Done (tt, v') /\
    size v' = size three_vector + 1 /\
    capacity v' = (if size three_vector =? capacity three_vector
                   then 2 * capacity three_vector else capacity three_vector) /\
    contents v' = take (Z.to_nat 1) (contents three_vector) ++
                  copy_result three_vector (Some 99) ::
                  drop (Z.to_nat 1) (contents three_vector) /\
    calls v' = calls three_vector ++ copy_calls (Some 99) /\
    vector_get 1 v' = Done (copy_result three_vector (Some 99), v').
Proof.
  split; [wf_concrete 3|]. split; [vm_compute; reflexivity|]. split; [cbn; lia|].
  apply (insert_inner three_vector 1 (Some 99)).
  - wf_concrete 3.
  - vm_compute; reflexivity.
  - cbn; lia.
Defined.

(** X10: [vector_insert] at a position with [1 <= position <= size],
    followed by [vector_erase] at the same position, gives back the size and
    the elements the vector had, when the insert leaves the vector not full;
    the calls made are the copy of the new element and the destruction of
    that copy. *)
Theorem insert_then_erase_restores {elem : Type} (v : @vector elem) (position : Z)
    (x : slot elem) :
  wf v -> size v < MAX_SLOTS -> 1 <= position <= size v ->
  size v + 1 < (if size v =? capacity v then 2 * capacity v else capacity v) ->
  exists v',
    run_operations [Insert position x; Erase position] v = Done (tt, v') /\
    size v' = size v /\
    contents v' = contents v /\
    calls v' = calls v ++ copy_calls x ++ [DestroyCall (copy_result v x)].
Proof.
  intros Hwf Hmax Hpos Hroom.
  destruct (vector_insert_inner v position x Hwf Hmax Hpos) as
    (v1 & a' & Hrun & Hwf1 & Hsz & Hroom1 & Hcalls & _ & Hcap & Hlen & Hcont).
  set (v2 := inserted position x a' v1) in *.
  assert (wf v2) as Hwf2 by (apply wf_inserted; [done|lia|done]).
  assert (size v2 = size v + 1) as Hsz2 by (subst v2; cbn; lia).
  assert (capacity v2 = capacity v1) as Hcap2 by done.
  pose proof (length_contents v Hwf) as Hlenc.
  assert (slot_at v2 position = copy_result v x) as Hslot.
  { assert (slot_at v2 (Z.of_nat (Z.to_nat position)) = copy_result v x) as H.
    { apply slot_at_contents. rewrite Hcont.
      rewrite lookup_app_r by (rewrite length_take; lia).
      rewrite length_take. by replace (_ - _)%nat with 0%nat by lia. }
    by rewrite Z2Nat.id in H by lia. }
  destruct (vector_erase_room v2 position Hwf2) as (a'' & Hrun2 & Hlen2 & Hcont2);
    [lia..|].
  exists (erased position a'' v2). cbn [run_operations run_operation].
  rewrite (bind_done _ _ _ _ _ Hrun), (bind_done _ _ _ _ _ Hrun2).
  split; [done|]. split; [cbn; lia|]. split.
  - unfold contents at 1. cbn [erased size array set_size set_array].
    rewrite Hcont2, Hcont.
    rewrite take_app_length' by (rewrite length_take; lia).
    rewrite cons_middle, app_assoc.
    rewrite drop_app_length' by (rewrite length_app, length_take; cbn; lia).
    apply take_drop.
  - cbn [calls erased set_size set_array record_call]. rewrite Hslot.
    subst v2. cbn. rewrite Hcalls, <- app_assoc. done.
Qed.

Lemma insert_then_erase_restores_witness :
  wf three_vector /\ size three_vector < MAX_SLOTS /\ 1 <= 2 <= size three_vector /\
  size three_vector + 1 < (if size three_vector =? capacity three_vector
                           then 2 * capacity three_vector else capacity three_vector) /\
  exists v',
    run_operations [Insert 2 (Some 99); Erase 2] three_vector = Done (tt, v') /\
    size v' = size three_vector /\
    contents v' = contents three_vector /\
    calls v' = calls three_vector ++ copy_calls (Some 99) ++
               [DestroyCall (copy_result three_vector (Some 99))].
Proof.
  split; [wf_concrete 3|]. split; [vm_compute; reflexivity|]. split; [cbn; lia|].
  split; [vm_compute; reflexivity|].
  apply (insert_then_erase_restores three_vector 2 (Some 99)).
  - wf_concrete 3.
  - vm_compute; reflexivity.
  - cbn; lia.
  - vm_compute; reflexivity.
Defined.

(** X11: [vector_set] at a position below [size] first passes the old slot
    to the destructor (also when it is [NULL]) and then stores a copy of the
    new element; [vector_get] at that position returns the copy, every other
    slot and the size are as before. *)
Theorem set_then_get {elem : Type} (v : @vector elem) (position : Z) (x : slot elem) :
  wf v -> 0 <= position < size v ->
  exists v',
    vector_set position x v = Done (tt, v') /\
    vector_get position v' = Done (copy_result v x, v') /\
    (forall i, 0 <= i -> i <> position -> slot_at v' i = slot_at v i) /\
    size v' = size v /\ capacity v' = capacity v /\
    calls v' = calls v ++ DestroyCall (slot_at v position) :: copy_calls x.
Proof.
  intros Hwf Hpos. pose proof Hwf as [Hblock Hsize _ _].
  exists (overwritten position x v).
  split; [by apply vector_set_overwrite|].
  split.
  { rewrite vector_get_in; [|cbn; by rewrite length_insert|cbn; lia|cbn; lia].
    do 2 f_equal. unfold slot_at. cbn.
    by rewrite list_lookup_insert_eq by lia. }
  split.
  { intros i Hi Hne. unfold slot_at. cbn.
    by rewrite list_lookup_insert_ne by lia. }
  split; [done|]. split; [done|].
  cbn. by rewrite <- app_assoc.
Qed.

Lemma set_then_get_witness :
  wf three_vector /\ 0 <= 1 < size three_vector /\
  exists v',
    vector_set 1 (Some 5) three_vector = Done (tt, v') /\
    vector_get 1 v' = Done (copy_result three_vector (Some 5), v') /\
    (forall i, 0 <= i -> i <> 1 -> slot_at v' i = slot_at three_vector i) /\
    size v' = size three_vector /\ capacity v' = capacity three_vector /\
    calls v' = calls three_vector ++
               DestroyCall (slot_at three_vector 1) :: copy_calls (Some 5).
Proof.
  split; [wf_concrete 3|]. split; [cbn; lia|].
  apply (set_then_get three_vector 1 (Some 5)).
  - wf_concrete 3.
  - cbn; lia.
Defined.

(** X12: [vector_insert] does not check [position] against [size].  With
    [size < position < capacity] nothing is shifted: the copy goes into the
    unused slot [position] and [size] grows by 1, so the element that becomes
    the last one is whatever slot [size] held, and the inserted copy lies
    behind the new [size], where [vector_get] stops at its assertion. *)
Theorem insert_behind_size {elem : Type} (v : @vector elem) (position : Z)
    (x : slot elem) :
  wf v -> size v < position < capacity v ->
  exists v',
    vector_insert position x v = Done (tt, v') /\
    size v' = size v + 1 /\
    contents v' = contents v ++ [slot_at v (size v)] /\
    slot_at v' position = copy_result v x /\
    vector_get position v' = AssertFail.
Proof.
  intros Hwf Hpos. pose proof Hwf as [Hblock Hsize _ _].
  exists (inserted position x (array v) v).
  split; [by apply vector_insert_beyond|]. split; [done|].
  split.
  { unfold contents. cbn.
    rewrite take_insert_ge by lia.
    replace (Z.to_nat (size v + 1)) with (S (Z.to_nat (size v))) by lia.
    destruct (lookup_lt_is_Some_2 (array v) (Z.to_nat (size v))) as [a Ha]; [lia|].
    rewrite (take_S_r _ _ _ Ha). unfold slot_at. by rewrite Ha. }
  split.
  { unfold slot_at. cbn. by rewrite list_lookup_insert_eq by lia. }
  apply vector_get_out. cbn. lia.
Qed.

Lemma insert_behind_size_witness :
  wf three_vector /\ size three_vector < 5 < capacity three_vector /\
  exists v',
    vector_insert 5 (Some 99) three_vector = Done (tt, v') /\
    size v' = size three_vector + 1 /\
    contents v' = contents three_vector ++ [slot_at three_vector (size three_vector)] /\
    slot_at v' 5 = copy_result three_vector (Some 99) /\
    vector_get 5 v' = AssertFail.
Proof.
  split; [wf_concrete 3|]. split; [cbn; lia|].
  apply (insert_behind_size three_vector 5 (Some 99)).
  - wf_concrete 3.
  - cbn; lia.
Defined.

(** X13: a sequence of operations with arguments in the range of [size_t],
    run on a well-formed vector, never stops at an assertion.  It returns
    with a well-formed vector (capacity a power of two, [size <= capacity]),
    or it leaves the block, or it does not return, and the last case needs a
    [reserve] or [resize] in the sequence with a target above [2 ^ 63]. *)
Theorem operations_return_well_formed_or_fault {elem : Type} (v : @vector elem)
    (os : list (@operation elem)) :
  wf v -> Forall operation_in_range os ->
  returns_wf (run_operations os v) \/ run_operations os v = OutOfBounds \/
  (run_operations os v = Diverges /\
   exists n, (elem_of (Reserve n) os \/ elem_of (Resize n) os) /\ 2 ^ 63 < n).
Proof.
  revert v. induction os as [|o os IH]; intros v Hwf Hrange.
  - left. by exists v.
  - apply Forall_cons in Hrange as [Ho Hos].
    cbn [run_operations]. rewrite bind_run.
    destruct (run_operation_outcome o v Hwf Ho) as
      [(v1 & -> & Hwf1)|[->|[-> (n & Hn & Hbig)]]].
    + destruct (IH v1 Hwf1 Hos) as [?|[?|[? (n & Hn & Hbig)]]]; [tauto|tauto|].
      right. right. split; [done|]. exists n. split; [|done].
      destruct Hn; [left|right]; by apply list_elem_of_further.
    + tauto.
    + right. right. split; [done|]. exists n. split; [|done].
      destruct Hn as [->| ->]; [left|right]; apply list_elem_of_here.
Qed.

Lemma operations_return_well_formed_or_fault_witness :
  wf three_vector /\
  Forall operation_in_range [PushBack (Some 4); Erase 0; Resize 2] /\
  (returns_wf (run_operations [PushBack (Some 4); Erase 0; Resize 2] three_vector) \/
   run_operations [PushBack (Some 4); Erase 0; Resize 2] three_vector = OutOfBounds \/
   (run_operations [PushBack (Some 4); Erase 0; Resize 2] three_vector = Diverges /\
    exists n, (elem_of (Reserve n) [PushBack (Some 4); Erase 0; Resize 2] \/
               elem_of (Resize n) [PushBack (Some 4); Erase 0; Resize 2]) /\
              2 ^ 63 < n)).
Proof.
  split; [wf_concrete 3|].
  split; [repeat constructor; vm_compute; (discriminate || reflexivity)|].
  apply (operations_return_well_formed_or_fault three_vector
           [PushBack (Some 4); Erase 0; Resize 2]).
  - wf_concrete 3.
  - repeat constructor; vm_compute; (discriminate || reflexivity).
Defined.

(** X14: the slots at the indices from [size] on hold no payload, and every
    operation that returns keeps it so (together with the representation
    invariant), as long as an [insert] is not made behind the last
    element. *)
Theorem unused_slots_stay_clear {elem : Type} (v v' : @vector elem)
    (o : @operation elem) :
  wf v -> tail_clear v -> operation_in_range o ->
  (forall position x, o = Insert position x -> position <= size v) ->
  run_operation o v = Done (tt, v') ->
  wf v' /\ tail_clear v'.
Proof.
  intros Hwf Htail Hrange Hins Hrun. split.
  - by eapply run_operation_wf.
  - by eapply run_operation_tail.
Qed.

Lemma unused_slots_stay_clear_witness :
  wf three_vector /\ tail_clear three_vector /\
  operation_in_range (Erase 0 : @operation Z) /\
  (forall position x, (Erase 0 : @operation Z) = Insert position x ->
                      position <= size three_vector) /\
  run_operation (Erase 0) three_vector
  = Done (tt, erased 0 [None; Some 1003; None; None; None; None; None; None] three_vector) /\
  wf (erased 0 [None; Some 1003; None; None; None; None; None; None] three_vector) /\
  tail_clear (erased 0 [None; Some 1003; None; None; None; None; None; None] three_vector).
Proof.
  split; [wf_concrete 3|]. split; [tail_concrete|].
  split; [vm_compute; split; (discriminate || reflexivity)|].
  split; [intros position x H; discriminate H|].
  split; [reflexivity|].
  apply (unused_slots_stay_clear three_vector _ (Erase 0)).
  - wf_concrete 3.
  - tail_concrete.
  - vm_compute; split; (discriminate || reflexivity).
  - intros position x H; discriminate H.
  - reflexivity.
Defined.

(** X15: [vector_destroy] on a well-formed vector returns; it passes every
    slot of the whole block that is not [NULL] to the destructor, once and in
    index order, and frees the block.  When the slots behind [size] are clear
    these are exactly the elements of the vector that are not [NULL]. *)
Theorem destroy_contract {elem : Type} (v : @vector elem) :
  wf v ->
  exists v',
    vector_destroy v = Done (tt, v') /\
    array v' = [] /\
    calls v' = calls v ++ (DestroyCall <$> live (array v)) /\
    (tail_clear v -> live (array v) = live (contents v)).
Proof.
  intros Hwf.
  destruct (vector_destroy_spec v Hwf) as (v' & Hrun & Harray & Hcalls).
  exists v'. split; [done|]. split; [done|]. split; [done|].
  by apply live_tail_clear.
Qed.

Lemma destroy_contract_witness :
  wf three_vector /\
  exists v',
    vector_destroy three_vector = Done (tt, v') /\
    array v' = [] /\
    calls v' = calls three_vector ++ (DestroyCall <$> live (array three_vector)) /\
    (tail_clear three_vector -> live (array three_vector) = live (contents three_vector)).
Proof.
  split; [wf_concrete 3|].
  apply (destroy_contract three_vector). wf_concrete 3.
Defined.

(** X16: on a vector that was created, filled by at most [MAX_SLOTS] pushes
    and then destroyed, the callbacks invoked are the copies made by the
    pushes followed by one destructor call for each stored copy that is not
    [NULL], in push order: no stored element is left out and none is
    destroyed twice. *)
Theorem pushes_then_destroy {elem : Type} (cc : elem -> slot elem)
    (dt : slot elem -> unit) (dc : unit -> slot elem) (xs : list (slot elem)) :
  Z.of_nat (length xs) <= MAX_SLOTS ->
  exists v',
    (run_operations (PushBack <$> xs);; vector_destroy) (vector_create cc dt dc)
    = Done (tt, v') /\
    calls v' = concat (copy_calls <$> xs) ++
               (DestroyCall <$> live (copy_result (vector_create cc dt dc) <$> xs)).
Proof.
  intros Hlen.
  destruct (push_backs_spec xs (vector_create cc dt dc) (wf_create cc dt dc)) as
    (v1 & Hrun1 & Hwf1 & _ & Hcont1 & Hcalls1 & _); [cbn; lia|].
  pose proof (push_backs_tail xs _ v1 (wf_create cc dt dc) (tail_clear_create cc dt dc)
                Hrun1) as Htail1.
  destruct (vector_destroy_spec v1 Hwf1) as (v' & Hrun & _ & Hcalls).
  exists v'. rewrite (bind_done _ _ _ _ _ Hrun1). split; [done|].
  rewrite Hcalls, (live_tail_clear v1 Hwf1 Htail1), Hcont1, Hcalls1. done.
Qed.

Lemma pushes_then_destroy_witness :
  Z.of_nat (length [Some 1; None; Some 3]) <= MAX_SLOTS /\
  exists v',
    (run_operations (PushBack <$> [Some 1; None; Some 3]);; vector_destroy) example_vector
    = Done (tt, v') /\
    calls v' = concat (copy_calls <$> [Some 1; None; Some 3]) ++
               (DestroyCall <$> live (copy_result example_vector <$> [Some 1; None; Some 3])).
Proof.
  split; [vm_compute; discriminate|].
  apply (pushes_then_destroy example_copy example_destructor example_default
           [Some 1; None; Some 3]).
  vm_compute; discriminate.
Defined.

(** X17: [vector_reserve] with a target above [MAX_SLOTS] does not return
    on any well-formed vector.  Up to [2 ^ 63] the byte size of the new block
    wraps to 0 and the loop that clears the new slots writes outside of the
    block; above [2 ^ 63] the loop of [get_new_capacity] does not exit. *)
Theorem reserve_above_max_slots {elem : Type} (v : @vector elem) (n : Z) :
  wf v -> MAX_SLOTS < n ->
  vector_reserve n v = (if n <=? 2 ^ 63 then OutOfBounds else Diverges).
Proof.
  intros [Hblock Hsize _ Hmax] Hbig.
  destruct (Z.leb_spec n (2 ^ 63)).
  - apply vector_reserve_wraps; lia.
  - apply vector_reserve_overflow; lia.
Qed.

Lemma reserve_above_max_slots_witness :
  wf three_vector /\ MAX_SLOTS < 2 ^ 62 /\
  vector_reserve (2 ^ 62) three_vector = (if 2 ^ 62 <=? 2 ^ 63 then OutOfBounds else Diverges).
Proof.
  split; [wf_concrete 3|]. split; [vm_compute; reflexivity|].
  apply (reserve_above_max_slots three_vector (2 ^ 62)).
  - wf_concrete 3.
  - vm_compute; reflexivity.
Defined.

(** X18: on an empty well-formed vector [vector_get] stops at its assertion
    for every position, [vector_erase] returns without a change for every
    position, [vector_clear] returns without a callback invocation, and
    [vector_pop_back] wraps [size] to [SIZE_MAX] and reads that slot, outside
    of the block. *)
Theorem empty_vector_edges {elem : Type} (v : @vector elem) (position : Z) :
  wf v -> size v = 0 -> 0 <= position ->
  vector_get position v = AssertFail /\
  vector_erase position v = Done (tt, v) /\
  (exists v', vector_clear v = Done (tt, v') /\ size v' = 0 /\ calls v' = calls v) /\
  vector_pop_back v = OutOfBounds.
Proof.
  intros Hwf Hempty Hpos. pose proof Hwf as [Hblock Hsize _ Hmax].
  split; [apply vector_get_out; lia|].
  split; [apply vector_erase_noop; lia|].
  split.
  - destruct (vector_clear_spec v Hwf) as (v' & Hrun & _ & Hsz & _ & _ & Hcalls & _).
    exists v'. split; [done|]. split; [done|].
    rewrite Hcalls. unfold contents. rewrite Hempty. cbn. apply app_nil_r.
  - apply vector_pop_back_empty; [done|size_lia].
Qed.

Lemma empty_vector_edges_witness :
  wf example_vector /\ size example_vector = 0 /\ 0 <= 2 /\
  vector_get 2 example_vector = AssertFail /\
  vector_erase 2 example_vector = Done (tt, example_vector) /\
  (exists v', vector_clear example_vector = Done (tt, v') /\ size v' = 0 /\
              calls v' = calls example_vector) /\
  vector_pop_back example_vector = OutOfBounds.
Proof.
  split; [split; cbn; [reflexivity|vm_compute; split; discriminate|by exists 3|
                       vm_compute; discriminate]|].
  split; [reflexivity|]. split; [lia|].
  apply (empty_vector_edges example_vector 2).
  - split; cbn; [reflexivity|vm_compute; split; discriminate|by exists 3|
                 vm_compute; discriminate].
  - reflexivity.
  - lia.
Defined.

(** X19: on a well-formed vector that is not full, [vector_set] at position
    [size] does what [vector_push_back] does: both store a copy of the
    element in slot [size] and increment [size], with the copy constructor as
    the only callback invoked. *)
Theorem set_at_size_is_push_back {elem : Type} (v : @vector elem) (x : slot elem) :
  wf v -> size v < capacity v ->
  vector_set (size v) x v = vector_push_back x v /\
  exists v',
    vector_push_back x v = Done (tt, v') /\
    size v' = size v + 1 /\
    contents v' = contents v ++ [copy_result v x] /\
    calls v' = calls v ++ copy_calls x.
Proof.
  intros Hwf Hroom. pose proof Hwf as [Hblock Hsize _ Hmax].
  rewrite vector_set_append by done.
  rewrite vector_push_back_room by (done || lia).
  split; [done|]. exists (appended x v).
  split; [done|]. split; [done|]. split; [by apply contents_appended|done].
Qed.

Lemma set_at_size_is_push_back_witness :
  wf three_vector /\ size three_vector < capacity three_vector /\
  vector_set (size three_vector) (Some 4) three_vector
  = vector_push_back (Some 4) three_vector /\
  exists v',
    vector_push_back (Some 4) three_vector = Done (tt, v') /\
    size v' = size three_vector + 1 /\
    contents v' = contents three_vector ++ [copy_result three_vector (Some 4)] /\
    calls v' = calls three_vector ++ copy_calls (Some 4).
Proof.
  split; [wf_concrete 3|]. split; [cbn; lia|].
  apply (set_at_size_is_push_back three_vector (Some 4)).
  - wf_concrete 3.
  - cbn; lia.
Defined.
